(** * legume.minimize: the [Minimize] optimiser wrapper

    A shallow embedding of [src/legume/minimize.py].  Numbers are modelled
    as real numbers ([R]); numpy arrays are one-dimensional lists of reals
    that live in a heap of arrays, so that the aliasing between the
    caller's start vector and [self.params] is visible; Python exceptions
    are explicit outcomes of a state-and-exception monad.  The wall clock
    ([t_store]) and the console line printed by [_disp] are not part of
    the state. *)

From Stdlib Require Import Reals Lra Lia ZArith String.
From stdpp Require Import base option list.
#[local] Open Scope R_scope.
#[local] Set Warnings "-register-all".

(** ** Python values *)

(** The dynamically typed values the module handles: [None], floats,
    autograd [ArrayBox]es (with their [_value] attribute), 1-D numpy
    arrays, tuples and lists. *)
Inductive pyval : Type :=
| PyNone
| PyFloat (x : R)
| PyArrayBox (_value : pyval)
| PyArray (xs : list R)
| PyTuple (vs : list pyval)
| PyList (vs : list pyval).

(** [str(type(x))] *)
Definition str_type (x : pyval) : string :=
  match x with
  | PyNone => "<class 'NoneType'>"
  | PyFloat _ => "<class 'float'>"
  | PyArrayBox _ => "<class 'autograd.numpy.numpy_boxes.ArrayBox'>"
  | PyArray _ => "<class 'numpy.ndarray'>"
  | PyTuple _ => "<class 'tuple'>"
  | PyList _ => "<class 'list'>"
  end.

Inductive exn : Type := ValueError | TypeError | IndexError | AttributeError.

(** The outcome of a Python expression: a value or a raised exception. *)
Inductive outcome (A : Type) : Type :=
| Val (a : A)
| Exn (e : exn).
Arguments Val {A} a.
Arguments Exn {A} e.

#[global] Instance outcome_ret : MRet outcome := λ A a, Val a.
#[global] Instance outcome_bind : MBind outcome := λ A B f m,
  match m with
  | Val a => f a
  | Exn e => Exn e
  end.

(** ** The static helper [_get_value] *)

Definition _get_value (x : pyval) : pyval :=
  if String.eqb (str_type x) "<class 'autograd.numpy.numpy_boxes.ArrayBox'>"
  then match x with PyArrayBox v => v | _ => x end
  else x.

(** ** numpy on 1-D arrays *)

(** Elementwise binary operation with numpy's broadcasting rule for 1-D
    operands: equal shapes are combined pointwise, a length-1 operand is
    stretched, anything else is a [ValueError]. *)
Definition broadcast (f : R → R → R) (xs ys : list R) : outcome (list R) :=
  if (length xs =? length ys)%nat then Val (zip_with f xs ys)
  else match xs, ys with
       | [x], _ => Val (f x <$> ys)
       | _, [y] => Val ((λ x, f x y) <$> xs)
       | _, _ => Exn ValueError
       end.

(** [np.zeros(shape)] for a 1-D shape *)
Definition np_zeros (n : nat) : list R := replicate n 0.

(** [np.square] and [np.sqrt] *)
Definition np_square (xs : list R) : list R := Rsqr <$> xs.
Definition np_sqrt (xs : list R) : list R := sqrt <$> xs.

(** Comparison of floats as a boolean, as numpy's [<] and [>] give it. *)
Definition Rltb (x y : R) : bool := if Rlt_dec x y then true else false.

(** ** [_step_adam] *)

(** The default of the keyword argument [epsilon]. *)
Definition epsilon_default : R := 1e-8.

Definition _step_adam (gradient mopt_old vopt_old : list R) (iteration : nat)
    (beta1 beta2 epsilon : R) : outcome (list R * list R * list R) :=
  mopt ← broadcast Rplus (Rmult beta1 <$> mopt_old)
                         (Rmult (1 - beta1) <$> gradient);
  let mopt_t := (λ x, x / (1 - beta1 ^ (iteration + 1))) <$> mopt in
  vopt ← broadcast Rplus (Rmult beta2 <$> vopt_old)
                         (Rmult (1 - beta2) <$> np_square gradient);
  let vopt_t := (λ x, x / (1 - beta2 ^ (iteration + 1))) <$> vopt in
  grad_adam ← broadcast Rdiv mopt_t ((λ x, x + epsilon) <$> np_sqrt vopt_t);
  mret (grad_adam, mopt, vopt).

(** ** The optimiser instance and the world it runs in *)

(** References to numpy arrays: indices into the heap. *)
Definition loc := nat.
Bind Scope nat_scope with loc.

(** The attributes of a [Minimize] instance that the drivers read and
    write.  [objective] and [jac] are fixed at construction and are section
    variables below; [of_last] exists only once the L-BFGS-B objective
    wrapper has run. *)
Record Minimize : Type := mkMinimize {
  params : loc;
  bounds : pyval;
  Nepochs : nat;
  disp_p : bool;
  iteration : nat;
  of_list : list pyval;
  of_last : option pyval
}.

(** What happened during a run, in order: each call of the user's
    objective (with the parameter values it received and the value it
    returned) and each call of the solver callback.  The log is ghost
    state: the program never reads it. *)
Inductive event : Type :=
| EvObjective (p : list R) (r : pyval)
| EvCallback (xk : loc).

Record world : Type := mkWorld {
  self : Minimize;
  heap : list (list R);
  log : list event
}.

(** The array a reference points to.  Every Python reference is live; the
    empty array stands for a reference outside the heap. *)
Definition deref (h : list (list R)) (l : loc) : list R := default [] (h !! l).

(** The state-and-exception monad: an exception leaves the state as it
    was when it was raised. *)
Definition M (A : Type) : Type := world → world * outcome A.

#[global] Instance M_ret : MRet M := λ A a w, (w, Val a).
#[global] Instance M_bind : MBind M := λ A B f m w,
  match m w with
  | (w', Val a) => f a w'
  | (w', Exn e) => (w', Exn e)
  end.

Definition raise {A} (e : exn) : M A := λ w, (w, Exn e).
Definition lift {A} (o : outcome A) : M A := λ w, (w, o).
Definition get_world : M world := λ w, (w, Val w).
Definition get_self : M Minimize := λ w, (w, Val (self w)).
Definition modify_self (f : Minimize → Minimize) : M unit :=
  λ w, (mkWorld (f (self w)) (heap w) (log w), Val tt).
Definition read (l : loc) : M (list R) := λ w, (w, Val (deref (heap w) l)).
Definition write (l : loc) (xs : list R) : M unit :=
  λ w, (mkWorld (self w) (<[l := xs]> (heap w)) (log w), Val tt).
Definition alloc (xs : list R) : M loc :=
  λ w, (mkWorld (self w) (heap w ++ [xs]) (log w), Val (length (heap w))).
Definition emit (e : event) : M unit :=
  λ w, (mkWorld (self w) (heap w) (log w ++ [e]), Val tt).

(** Attribute assignments [self.x = v]. *)
Definition set_params (l : loc) (s : Minimize) : Minimize :=
  mkMinimize l (bounds s) (Nepochs s) (disp_p s) (iteration s) (of_list s) (of_last s).
Definition set_bounds (b : pyval) (s : Minimize) : Minimize :=
  mkMinimize (params s) b (Nepochs s) (disp_p s) (iteration s) (of_list s) (of_last s).
Definition set_Nepochs (n : nat) (s : Minimize) : Minimize :=
  mkMinimize (params s) (bounds s) n (disp_p s) (iteration s) (of_list s) (of_last s).
Definition set_disp_p (d : bool) (s : Minimize) : Minimize :=
  mkMinimize (params s) (bounds s) (Nepochs s) d (iteration s) (of_list s) (of_last s).
Definition set_iteration (i : nat) (s : Minimize) : Minimize :=
  mkMinimize (params s) (bounds s) (Nepochs s) (disp_p s) i (of_list s) (of_last s).
Definition set_of_list (l : list pyval) (s : Minimize) : Minimize :=
  mkMinimize (params s) (bounds s) (Nepochs s) (disp_p s) (iteration s) l (of_last s).
Definition set_of_last (v : pyval) (s : Minimize) : Minimize :=
  mkMinimize (params s) (bounds s) (Nepochs s) (disp_p s) (iteration s) (of_list s) (Some v).

(** [self.params.size] *)
Definition params_size (w : world) : nat :=
  length (deref (heap w) (params (self w))).

(** ** [_parse_bounds] *)

(** [bounds] is [None] or a Python list or tuple, as the docstring has it;
    [len] of a number is a [TypeError]. *)
Definition _parse_bounds (bnds : pyval) : M pyval :=
  s ← get_self;
  size ← (xs ← read (params s); mret (length xs));
  match bnds with
  | PyNone => mret PyNone
  | PyList l | PyTuple l =>
      if (length l =? 2)%nat then mret (PyList (replicate size (PyTuple l)))
      else if (length l =? size)%nat then mret bnds
      else raise ValueError
  | _ => raise TypeError
  end.

(** ** [_disp] *)

(** [_disp] formats [self.of_list[-1]] with [%4e]: that needs a number. *)
Definition _disp : M unit :=
  s ← get_self;
  match last (of_list s) with
  | None => raise IndexError
  | Some (PyFloat _) => mret tt
  | Some _ => raise TypeError
  end.

(** ** Sequences, tuple unpacking and the bound arrays *)

(** Iterating over a value ([for b in v], [list(v)]); a number is not
    iterable. *)
Definition py_iter (v : pyval) : outcome (list pyval) :=
  match v with
  | PyList l | PyTuple l => Val l
  | PyArray xs => Val (PyFloat <$> xs)
  | _ => Exn TypeError
  end.

(** [v[i]] *)
Definition getitem (v : pyval) (i : nat) : outcome pyval :=
  match v with
  | PyList l | PyTuple l =>
      match l !! i with Some x => Val x | None => Exn IndexError end
  | PyArray xs =>
      match xs !! i with Some x => Val (PyFloat x) | None => Exn IndexError end
  | _ => Exn TypeError
  end.

(** [a, b = v] *)
Definition unpack2 (v : pyval) : outcome (pyval * pyval) :=
  l ← py_iter v;
  match l with
  | [a; b] => Val (a, b)
  | _ => Exn ValueError
  end.

(** [[b[i] for b in bs]] *)
Fixpoint bounds_column (i : nat) (bs : list pyval) : outcome (list pyval) :=
  match bs with
  | [] => Val []
  | b :: bs' => x ← getitem b i; xs ← bounds_column i bs'; mret (x :: xs)
  end.

(** [np.array(vs)] as a 1-D array of floats.  Nested sequences give a 2-D
    array, on which the masked assignment below fails with an
    [IndexError]; the model reports that failure here. *)
Definition as_float (v : pyval) : outcome R :=
  match v with
  | PyFloat x => Val x
  | PyList _ | PyTuple _ | PyArray _ => Exn IndexError
  | _ => Exn TypeError
  end.

Fixpoint np_array (vs : list pyval) : outcome (list R) :=
  match vs with
  | [] => Val []
  | v :: vs' => x ← as_float v; xs ← np_array vs'; mret (x :: xs)
  end.

(** [p[cmp p bs] = bs[cmp p bs]]: where the mask holds, the entry of [p] is
    replaced by the entry of [bs].  With shapes that differ either the
    comparison does not broadcast or the boolean index does not fit. *)
Definition masked_assign (cmp : R → R → bool) (p bs : list R) : outcome (list R) :=
  if (length p =? length bs)%nat
  then Val (zip_with (λ x b, if cmp x b then b else x) p bs)
  else if ((length p =? 1) || (length bs =? 1))%nat then Exn IndexError
  else Exn ValueError.

(** The truth value of the [bounds] argument in [if bounds:]. *)
Definition truthy (v : pyval) : bool :=
  match v with
  | PyList (_ :: _) | PyTuple (_ :: _) => true
  | _ => false
  end.

(** The gradient is an array: [grad.shape] is read on the first
    iteration. *)
Definition as_array (v : pyval) : outcome (list R) :=
  match v with
  | PyArray xs => Val xs
  | _ => Exn AttributeError
  end.

(** [jac] is [True] (the objective returns the pair) or a function of its
    own. *)
Inductive jac_mode : Type :=
| JacTrue
| JacFun (f : list R → option world → pyval).

(** ** The external solver *)

(** [res]: the solver's [OptimizeResult], with its final iterate [res.x]. *)
Record OptimizeResult : Type := mkResult {
  res_x : loc;
  res_status : Z
}.

(** What [lbfgs] hands to [scipy.optimize.minimize] besides the wrapped
    objective, the callback and [jac]: the start vector, the parsed bounds
    and the budgets [maxfun] and [maxiter]; the other options are
    constants. *)
Record lbfgsb_call : Type := mkCall {
  call_x0 : loc;
  call_bounds : pyval;
  call_maxfun : nat;
  call_maxiter : nat
}.

(** The solver is external code.  All this module sees of it is a finite
    sequence of requests, each depending on the answers to the earlier
    ones: it builds arrays of its own, calls the wrapped objective, calls
    [jac] when that is a function, calls the callback, and at last returns
    its result. *)
Inductive solver : Type :=
| SReturn (res : OptimizeResult)
| SAlloc (xs : list R) (k : loc → solver)
| SFun (x : loc) (k : pyval → solver)
| SJac (x : loc) (k : pyval → solver)
| SCallback (xk : loc) (k : solver).

Section Drivers.

(** [self.objective] and [self.jac].  The extra positional arguments
    [args] are fixed for a run and belong to the closure; the second
    argument is the optimiser instance that [pass_self] appends. *)
Variable objective : list R → option world → pyval.
Variable jac : jac_mode.

(** [self.objective(x, *args)] *)
Definition call_objective (pass_self : bool) (x : loc) : M pyval :=
  p ← read x;
  w ← get_world;
  let r := objective p (if pass_self then Some w else None) in
  emit (EvObjective p r);;
  mret r.

(** Lines 94-98: the objective and the gradient at [self.params]. *)
Definition evaluate (pass_self : bool) : M (pyval * pyval) :=
  s ← get_self;
  match jac with
  | JacTrue =>
      r ← call_objective pass_self (params s);
      lift (unpack2 r)
  | JacFun f =>
      of_ ← call_objective pass_self (params s);
      p ← read (params s);
      w ← get_world;
      mret (of_, f p (if pass_self then Some w else None))
  end.

(** Lines 114-118: the parameters outside their bounds are snapped to
    the bound, in place. *)
Definition clamp : M unit :=
  s ← get_self;
  bs ← lift (py_iter (bounds s));
  lbs ← lift (bounds_column 0 bs ≫= np_array);
  ubs ← lift (bounds_column 1 bs ≫= np_array);
  p ← read (params s);
  p1 ← lift (masked_assign Rltb p lbs);
  write (params s) p1;;
  p2 ← read (params s);
  p3 ← lift (masked_assign (λ x ub, Rltb ub x) p2 ubs);
  write (params s) p3.

(** Lines 91-109: count the iteration, evaluate, record the unwrapped
    objective, display, set the moments to zero on the first pass, and
    compute the Adam update. *)
Definition adam_gradient (beta1 beta2 : R) (pass_self : bool) (iter : nat)
    (mv : list R * list R) : M (list R * list R * list R) :=
  modify_self (λ s, set_iteration (iteration s + 1) s);;
  '(of_, g) ← evaluate pass_self;
  modify_self (λ s, set_of_list (of_list s ++ [_get_value of_]) s);;
  _disp;;
  grad ← lift (as_array g);
  let '(mopt, vopt) :=
    if (iter =? 0)%nat
    then (np_zeros (length grad), np_zeros (length grad)) else mv in
  lift (_step_adam grad mopt vopt iter beta1 beta2 epsilon_default).

(** Lines 111-112: [self.params = self.params - step_size*grad_adam],
    a new array, on every pass but the last. *)
Definition adam_update (step_size : R) (iter : nat) (grad_adam : list R)
    : M unit :=
  s ← get_self;
  if (Z.of_nat iter <? Z.of_nat (Nepochs s) - 1)%Z
  then p ← read (params s);
       p' ← lift (broadcast Rminus p (Rmult step_size <$> grad_adam));
       l ← alloc p';
       modify_self (set_params l)
  else mret tt.

(** Line 114: [if bounds:] tests the argument, not [self.bounds]. *)
Definition adam_clamp (bnds : pyval) : M unit :=
  if truthy bnds then clamp else mret tt.

(** One pass through the body of the loop of [adam] (lines 91-118). *)
Definition adam_epoch (bnds : pyval) (step_size beta1 beta2 : R)
    (pass_self : bool) (iter : nat) (mv : list R * list R)
    : M (list R * list R) :=
  '(grad_adam, mopt, vopt) ← adam_gradient beta1 beta2 pass_self iter mv;
  adam_update step_size iter grad_adam;;
  adam_clamp bnds;;
  mret (mopt, vopt).

(** [for iteration in range(Nepochs)]; the moments are unbound before
    the first pass, which sets them. *)
Fixpoint adam_loop (bnds : pyval) (step_size beta1 beta2 : R)
    (pass_self : bool) (iters : list nat) (mv : list R * list R)
    : M (list R * list R) :=
  match iters with
  | [] => mret mv
  | iter :: rest =>
      mv' ← adam_epoch bnds step_size beta1 beta2 pass_self iter mv;
      adam_loop bnds step_size beta1 beta2 pass_self rest mv'
  end.

Definition adam (pstart : loc) (Nepochs' : nat) (bnds : pyval)
    (disp_p' : bool) (step_size beta1 beta2 : R) (pass_self : bool)
    : M (loc * list pyval) :=
  modify_self (set_params pstart);;
  b ← _parse_bounds bnds;
  modify_self (set_bounds b);;
  modify_self (set_Nepochs Nepochs');;
  modify_self (set_disp_p disp_p');;
  modify_self (set_iteration 0);;
  modify_self (set_of_list []);;
  adam_loop bnds step_size beta1 beta2 pass_self (seq 0 Nepochs') ([], []);;
  s ← get_self;
  mret (params s, of_list s).

(** *** The L-BFGS-B adapter *)

(** The objective wrapper [of] defined inside [lbfgs] (lines 167-178). *)
Definition lbfgs_of (pass_self : bool) (x : loc) : M pyval :=
  r ← call_objective pass_self x;
  out ← lift (py_iter r);
  v ← lift (getitem (PyList out) 0);
  modify_self (set_of_last (_get_value v));;
  mret (PyTuple out).

(** The callback [cb] defined inside [lbfgs] (lines 180-190). *)
Definition cb (xk : loc) : M unit :=
  modify_self (λ s, set_iteration (iteration s + 1) s);;
  s ← get_self;
  v ← match of_last s with
      | Some v => mret v
      | None => raise AttributeError
      end;
  modify_self (λ s, set_of_list (of_list s ++ [v]) s);;
  modify_self (set_params xk);;
  _disp.

(** Running the solver: each request of the solver is served by the
    wrapper, the callback or the gradient function. *)
Fixpoint run_solver (pass_self : bool) (t : solver) : M OptimizeResult :=
  match t with
  | SReturn res => mret res
  | SAlloc xs k => l ← alloc xs; run_solver pass_self (k l)
  | SFun x k => r ← lbfgs_of pass_self x; run_solver pass_self (k r)
  | SJac x k =>
      match jac with
      | JacTrue => raise TypeError
      | JacFun f => p ← read x; run_solver pass_self (k (f p None))
      end
  | SCallback xk k =>
      emit (EvCallback xk);; cb xk;; run_solver pass_self k
  end.

(** [scipy.optimize.minimize] with [method='L-BFGS-B']: an arbitrary
    solver, given the start vector and the options of lines 192-202. *)
Variable minimize : lbfgsb_call → solver.

Definition lbfgs (pstart : loc) (Nepochs' : nat) (bnds : pyval)
    (disp_p' : bool) (maxfun : nat) (pass_self res_store : bool)
    : M (loc * list pyval * option OptimizeResult) :=
  modify_self (set_params pstart);;
  b ← _parse_bounds bnds;
  modify_self (set_bounds b);;
  modify_self (set_Nepochs Nepochs');;
  modify_self (set_disp_p disp_p');;
  modify_self (set_iteration 0);;
  modify_self (set_of_list []);;
  s ← get_self;
  res ← run_solver pass_self
          (minimize (mkCall (params s) (bounds s) maxfun Nepochs'));
  s ← get_self;
  mret (res_x res, of_list s, if res_store then Some res else None).

End Drivers.

(** * Specification-side definitions and proof tools *)

Ltac munfold :=
  unfold mbind, M_bind, outcome_bind, mret, M_ret, outcome_ret, get_self,
    get_world, read, write, alloc, emit, modify_self, raise, lift;
  cbn.

Ltac solve_length :=
  unfold np_square, np_sqrt, np_zeros;
  repeat (rewrite ?length_fmap, ?length_zip_with, ?length_replicate);
  lia.

(** One component of the Adam update as the specification writes it, for
    the 1-indexed iteration [t]. *)
Definition adam_update_spec (beta1 beta2 : R) (t : nat) (g m_prev v_prev : R)
    : R * R * R :=
  let m := beta1 * m_prev + (1 - beta1) * g in
  let m_hat := m / (1 - beta1 ^ t) in
  let v := beta2 * v_prev + (1 - beta2) * (g * g) in
  let v_hat := v / (1 - beta2 ^ t) in
  (m_hat / (sqrt v_hat + 1e-8), m, v).

(** A bounds argument that [_parse_bounds] accepts for [size] parameters. *)
Definition valid_bounds (size : nat) (bnds : pyval) : bool :=
  match bnds with
  | PyNone => true
  | PyList l | PyTuple l => (length l =? 2)%nat || (length l =? size)%nat
  | _ => false
  end.

(** A Python list or tuple. *)
Definition is_sequence (v : pyval) : option (list pyval) :=
  match v with
  | PyList l | PyTuple l => Some l
  | _ => None
  end.

(** The number of constructors in a value: a value is larger than the
    members of a sequence it holds. *)
Fixpoint pysize (v : pyval) : nat :=
  match v with
  | PyNone | PyFloat _ | PyArray _ => 1%nat
  | PyArrayBox v' => S (pysize v')
  | PyTuple vs | PyList vs =>
      S ((fix sum (l : list pyval) : nat :=
            match l with
            | [] => 0%nat
            | x :: l' => (pysize x + sum l')%nat
            end) vs)
  end.

(** The world once the first statement of a driver, [self.params = pstart],
    has run. *)
Definition started (pstart : loc) (w : world) : world :=
  mkWorld (set_params pstart (self w)) (heap w) (log w).

(** *** Concrete objects for the examples *)

(** The objective of the end-to-end scenario, [f(x) = sum of x[i]^2] with
    its gradient [2x], returned jointly (the [jac == True] mode). *)
Definition sum_squares (p : list R) : R := foldr (λ x acc, x * x + acc) 0 p.
Definition sphere : list R → option world → pyval :=
  λ p _, PyTuple [PyFloat (sum_squares p); PyArray (Rmult 2 <$> p)].

(** A solver that returns its start vector at once. *)
Definition idle_solver : lbfgsb_call → solver :=
  λ c, SReturn (mkResult (call_x0 c) 0).

(** A solver that evaluates the wrapped objective at the start vector,
    reports one iterate to the callback and returns. *)
Definition one_step_solver : lbfgsb_call → solver :=
  λ c, SFun (call_x0 c) (λ _,
         SCallback (call_x0 c) (SReturn (mkResult (call_x0 c) 0))).

(** An instance as [__init__] leaves it, in a heap that holds one array. *)
Definition world_of (p : list R) : world :=
  mkWorld (mkMinimize 0 PyNone 0 false 0 [] None) [p] [].

(** *** The trace an event log accounts for *)

(** What the objective wrapper stores for a returned value [r]: the first
    member of [list(r)], unwrapped. *)
Definition stored_value (r : pyval) : outcome pyval :=
  out ← py_iter r; v ← getitem (PyList out) 0; mret (_get_value v).

(** Replaying a log: an objective evaluation replaces the stored value, a
    callback appends the stored value to the trace. *)
Fixpoint replay (stored : option pyval) (es : list event) : list pyval :=
  match es with
  | [] => []
  | EvObjective _ r :: es' =>
      replay (match stored_value r with Val v => Some v | Exn _ => stored end) es'
  | EvCallback _ :: es' =>
      match stored with
      | Some v => v :: replay stored es'
      | None => replay stored es'
      end
  end.

(** The number of callback invocations, and of objective evaluations, in
    a log. *)
Fixpoint callbacks (es : list event) : nat :=
  match es with
  | [] => 0%nat
  | EvCallback _ :: es' => S (callbacks es')
  | EvObjective _ _ :: es' => callbacks es'
  end.

Fixpoint evaluations (es : list event) : nat :=
  match es with
  | [] => 0%nat
  | EvObjective _ _ :: es' => S (evaluations es')
  | EvCallback _ :: es' => evaluations es'
  end.

(** The iterate of the last callback invocation, if there was one. *)
Fixpoint last_iterate (es : list event) (x : loc) : loc :=
  match es with
  | [] => x
  | EvCallback xk :: es' => last_iterate es' xk
  | EvObjective _ _ :: es' => last_iterate es' x
  end.

(** *** Bounds as intervals *)

(** The (lb, ub) pair a bound entry [b] holds: [b[0]] and [b[1]]. *)
Definition bound_pair (b : pyval) : option (R * R) :=
  match getitem b 0, getitem b 1 with
  | Val (PyFloat lb), Val (PyFloat ub) => Some (lb, ub)
  | _, _ => None
  end.

(** [x] lies in the interval of [b], ends included. *)
Definition within (x : R) (b : pyval) : Prop :=
  match bound_pair b with
  | Some (lb, ub) => lb <= x <= ub
  | None => False
  end.

(** Every parameter lies within its own bound. *)
Definition in_bounds (p : list R) (bs : list pyval) : Prop :=
  Forall2 within p bs.

(** The pair of [b], if it has one, satisfies [lb <= ub]. *)
Definition ordered (b : pyval) : Prop :=
  match bound_pair b with
  | Some (lb, ub) => lb <= ub
  | None => True
  end.

(** The moments a pass starts from: zeros on the first pass. *)
Definition moments (iter : nat) (grad : list R) (mv : list R * list R)
    : list R * list R :=
  if (iter =? 0)%nat
  then (np_zeros (length grad), np_zeros (length grad)) else mv.

(** Whether pass [iter] of a run of [N] passes replaces the parameters. *)
Definition steps (N iter : nat) : bool :=
  (Z.of_nat iter <? Z.of_nat N - 1)%Z.

(** How many of the passes [iters] of a run of [N] passes replace the
    parameters. *)
Fixpoint nsteps (N : nat) (iters : list nat) : nat :=
  match iters with
  | [] => 0%nat
  | iter :: rest => ((if steps N iter then 1 else 0) + nsteps N rest)%nat
  end.



(** *** The run of [adam] as the specification describes it *)

Section Reference.

Variable objective : list R → option world → pyval.
Variable jac : jac_mode.





End Reference.

(** *** The contracts of the objective and of the bounds *)


(** The entries that [_parse_bounds] yields for [n] parameters and a list
    or tuple [bnds]. *)
Definition bound_entries (n : nat) (bnds : pyval) : list pyval :=
  match bnds with
  | PyList l | PyTuple l =>
      if (length l =? 2)%nat then replicate n (PyTuple l) else l
  | _ => []
  end.


(** The objective value in what the objective returned: the first member
    of the pair with [jac == True], the value itself otherwise. *)
Definition objective_value (jac : jac_mode) (r : pyval) : outcome pyval :=
  match jac with
  | JacTrue =>
      match unpack2 r with
      | Val (v, _) => Val v
      | Exn e => Exn e
      end
  | JacFun _ => Val r
  end.

(** The trace that the objective evaluations of a log account for. *)
Fixpoint trace_of (jac : jac_mode) (es : list event) : list pyval :=
  match es with
  | [] => []
  | EvObjective _ r :: es' =>
      match objective_value jac r with
      | Val v => _get_value v :: trace_of jac es'
      | Exn _ => trace_of jac es'
      end
  | EvCallback _ :: es' => trace_of jac es'
  end.


(** What [_step_adam] computes on operands of one shape. *)
Definition step_adam_same_shape (g m_prev v_prev : list R) (iter : nat)
    (beta1 beta2 epsilon : R) : list R * list R * list R :=
  let m := zip_with Rplus (Rmult beta1 <$> m_prev) (Rmult (1 - beta1) <$> g) in
  let v := zip_with Rplus (Rmult beta2 <$> v_prev)
             (Rmult (1 - beta2) <$> np_square g) in
  (zip_with Rdiv ((λ x, x / (1 - beta1 ^ (iter + 1))) <$> m)
     ((λ x, x + epsilon) <$> np_sqrt ((λ x, x / (1 - beta2 ^ (iter + 1))) <$> v)),
   m, v).

(** *** What a run of [adam] can depend on *)

(** The world without what [adam] never reads: the value stored by the
    L-BFGS-B wrapper and the log. *)
Definition erase (w : world) : world :=
  mkWorld
    (mkMinimize (params (self w)) (bounds (self w)) (Nepochs (self w))
       (disp_p (self w)) (iteration (self w)) (of_list (self w)) None)
    (heap w) [].

(** A computation whose outcome, and whose effect on the rest of the
    world, do not depend on the erased parts. *)
Definition insensitive {A} (m : M A) : Prop :=
  ∀ w, (m (erase w)).2 = (m w).2 ∧ erase (m (erase w)).1 = erase (m w).1.

(** * Properties *)

(** ** [_get_value] *)


(** ** [_step_adam] *)

Lemma broadcast_same_length (f : R → R → R) (xs ys : list R) :
  length xs = length ys → broadcast f xs ys = Val (zip_with f xs ys).
Proof.
  intros Hlen. unfold broadcast.
  rewrite Hlen, Nat.eqb_refl. reflexivity.
Qed.

(** C1: on a gradient and moments of one shape, [_step_adam] at the
    1-indexed iteration [t] (the loop index [t - 1]) succeeds, and every
    component of the update and of the new moments is the bias-corrected
    Adam estimate with epsilon 1e-8. *)
Theorem step_adam_is_bias_corrected_adam
    (g m_prev v_prev : list R) (t : nat) (beta1 beta2 : R) :
  (1 ≤ t)%nat →
  length m_prev = length g →
  length v_prev = length g →
  ∃ update m v,
    _step_adam g m_prev v_prev (t - 1) beta1 beta2 epsilon_default
      = Val (update, m, v)
    ∧ length update = length g ∧ length m = length g ∧ length v = length g
    ∧ ∀ i gi mi vi,
        g !! i = Some gi → m_prev !! i = Some mi → v_prev !! i = Some vi →
        ∃ ui mi' vi',
          update !! i = Some ui ∧ m !! i = Some mi' ∧ v !! i = Some vi'
          ∧ (ui, mi', vi') = adam_update_spec beta1 beta2 t gi mi vi.
Proof.
  intros Ht Hm Hv. unfold _step_adam.
  replace (t - 1 + 1)%nat with t by lia.
  do 2 (rewrite broadcast_same_length by solve_length;
        cbn [mbind outcome_bind]).
  rewrite broadcast_same_length by solve_length.
  cbn [mbind outcome_bind mret outcome_ret].
  eexists _, _, _. split; [reflexivity|].
  split; [solve_length|]. split; [solve_length|]. split; [solve_length|].
  intros i gi mi vi Hgi Hmi Hvi.
  eexists _, _, _. unfold np_sqrt, np_square.
  rewrite !lookup_zip_with, !list_lookup_fmap, !lookup_zip_with,
    !list_lookup_fmap, Hgi, Hmi, Hvi.
  cbn. repeat split.
Qed.

Lemma step_adam_is_bias_corrected_adam_witness :
  ∃ update m v,
    _step_adam [1] [0] [0] (1 - 1) 0.9 0.999 epsilon_default
      = Val (update, m, v)
    ∧ length update = 1%nat ∧ length m = 1%nat ∧ length v = 1%nat
    ∧ ∀ i gi mi vi,
        [1] !! i = Some gi → [0] !! i = Some mi → [0] !! i = Some vi →
        ∃ ui mi' vi',
          update !! i = Some ui ∧ m !! i = Some mi' ∧ v !! i = Some vi'
          ∧ (ui, mi', vi') = adam_update_spec 0.9 0.999 1 gi mi vi.
Proof.
  apply (step_adam_is_bias_corrected_adam [1] [0] [0] 1 0.9 0.999);
    [lia | reflexivity | reflexivity].
Defined.

(** ** [_parse_bounds] *)

Lemma bind_unfold {A B} (m : M A) (f : A → M B) (w : world) :
  (m ≫= f) w = match m w with
               | (w', Val a) => f a w'
               | (w', Exn e) => (w', Exn e)
               end.
Proof. reflexivity. Qed.

Lemma parse_bounds_unfold (bnds : pyval) (w : world) :
  _parse_bounds bnds w =
    match bnds with
    | PyNone => (w, Val PyNone)
    | PyList l | PyTuple l =>
        if (length l =? 2)%nat
        then (w, Val (PyList (replicate (params_size w) (PyTuple l))))
        else if (length l =? params_size w)%nat then (w, Val bnds)
        else (w, Exn ValueError)
    | _ => (w, Exn TypeError)
    end.
Proof.
  unfold _parse_bounds, params_size. munfold.
  destruct bnds; try reflexivity.
  all: destruct (length vs =? 2)%nat; try reflexivity.
  all: destruct (length vs =? _)%nat; reflexivity.
Qed.

(** C10: with exactly two parameters every 2-element [bounds] sequence,
    also a list of two (lb, ub) pairs, takes the 2-element branch: the
    result is the whole sequence as one tuple, once per parameter, and it
    is never the sequence itself. *)
Theorem parse_bounds_two_params_broadcasts (bnds : pyval) (l : list pyval)
    (w : world) :
  params_size w = 2%nat →
  is_sequence bnds = Some l →
  length l = 2%nat →
  _parse_bounds bnds w = (w, Val (PyList [PyTuple l; PyTuple l]))
  ∧ PyList [PyTuple l; PyTuple l] ≠ bnds.
Proof.
  intros Hsize Hseq Hlen. split.
  - rewrite parse_bounds_unfold.
    destruct bnds; try discriminate; injection Hseq as ->;
      by rewrite Hlen, Hsize.
  - intros Heq. apply (f_equal pysize) in Heq.
    destruct bnds; try discriminate; injection Hseq as ->.
    + destruct l as [|a [|b [|]]]; try discriminate. cbn in Heq. lia.
    + destruct l as [|a [|b [|]]]; try discriminate. cbn in Heq. lia.
Qed.

Lemma parse_bounds_two_params_broadcasts_witness :
  let pairs := [PyTuple [PyFloat 0; PyFloat 1]; PyTuple [PyFloat 2; PyFloat 3]] in
  let w := mkWorld (mkMinimize 0 PyNone 0 false 0 [] None) [[5; 6]] [] in
  _parse_bounds (PyList pairs) w = (w, Val (PyList [PyTuple pairs; PyTuple pairs]))
  ∧ PyList [PyTuple pairs; PyTuple pairs] ≠ PyList pairs.
Proof.
  intros pairs w.
  apply (parse_bounds_two_params_broadcasts (PyList pairs) pairs w);
    reflexivity.
Defined.

(** The world once [self.params = pstart] has run. *)
Lemma adam_unfold objective jac pstart N bnds disp step_size beta1 beta2
    pass_self w :
  adam objective jac pstart N bnds disp step_size beta1 beta2 pass_self w =
    match _parse_bounds bnds (started pstart w) with
    | (w1, Val b) =>
        let w2 := mkWorld (mkMinimize (params (self w1)) b N disp 0 []
                             (of_last (self w1))) (heap w1) (log w1) in
        match adam_loop objective jac bnds step_size beta1 beta2 pass_self
                (seq 0 N) ([], []) w2 with
        | (w3, Val _) => (w3, Val (params (self w3), of_list (self w3)))
        | (w3, Exn e) => (w3, Exn e)
        end
    | (w1, Exn e) => (w1, Exn e)
    end.
Proof.
  unfold adam, started. rewrite bind_unfold. cbn [modify_self].
  rewrite bind_unfold.
  destruct (_parse_bounds bnds _) as [w1 [b|e]]; [|reflexivity].
  munfold. destruct (adam_loop _ _ _ _ _ _ _ _ _ _) as [w3 [mv|e]]; reflexivity.
Qed.

Lemma lbfgs_unfold objective jac minimize pstart N bnds disp maxfun
    pass_self res_store w :
  lbfgs objective jac minimize pstart N bnds disp maxfun pass_self res_store w =
    match _parse_bounds bnds (started pstart w) with
    | (w1, Val b) =>
        let w2 := mkWorld (mkMinimize (params (self w1)) b N disp 0 []
                             (of_last (self w1))) (heap w1) (log w1) in
        match run_solver objective jac pass_self
                (minimize (mkCall (params (self w1)) b maxfun N)) w2 with
        | (w3, Val res) =>
            (w3, Val (res_x res, of_list (self w3),
                      if res_store then Some res else None))
        | (w3, Exn e) => (w3, Exn e)
        end
    | (w1, Exn e) => (w1, Exn e)
    end.
Proof.
  unfold lbfgs, started. rewrite bind_unfold. cbn [modify_self].
  rewrite bind_unfold.
  destruct (_parse_bounds bnds _) as [w1 [b|e]]; [|reflexivity].
  munfold. destruct (run_solver _ _ _ _ _) as [w3 [res|e]]; reflexivity.
Qed.

(** X1: the cases of [_parse_bounds]: [None] gives no bounds; a list or
    tuple of two elements gives that pair as a tuple once per parameter; a
    list or tuple of another length that is the parameter count is
    returned as it is; every other length raises [ValueError], and then
    [adam] and [lbfgs] raise it with nothing done but
    [self.params = pstart]: no objective call, no array touched, the
    counters not reset. *)
Lemma parse_bounds_by_length objective jac minimize (bnds : pyval)
    (l : list pyval) (pstart : loc) (w : world) :
  is_sequence bnds = Some l →
  let w0 := started pstart w in
  let size := length (deref (heap w) pstart) in
  _parse_bounds PyNone w0 = (w0, Val PyNone)
  ∧ (length l = 2%nat →
       _parse_bounds bnds w0 = (w0, Val (PyList (replicate size (PyTuple l))))
       ∧ length (replicate size (PyTuple l)) = size)
  ∧ (length l = size → length l ≠ 2%nat →
       _parse_bounds bnds w0 = (w0, Val bnds))
  ∧ (length l ≠ 2%nat → length l ≠ size →
       _parse_bounds bnds w0 = (w0, Exn ValueError)
       ∧ (∀ N disp step_size beta1 beta2 pass_self,
            adam objective jac pstart N bnds disp step_size beta1 beta2
              pass_self w = (w0, Exn ValueError))
       ∧ (∀ N disp maxfun pass_self res_store,
            lbfgs objective jac minimize pstart N bnds disp maxfun pass_self
              res_store w = (w0, Exn ValueError))).
Proof.
  intros Hseq w0 size.
  assert (Hsize : params_size w0 = size) by reflexivity.
  assert (Hparse : _parse_bounds bnds w0 =
            if (length l =? 2)%nat
            then (w0, Val (PyList (replicate size (PyTuple l))))
            else if (length l =? size)%nat then (w0, Val bnds)
            else (w0, Exn ValueError)).
  { rewrite parse_bounds_unfold, Hsize.
    destruct bnds; try discriminate; injection Hseq as ->; reflexivity. }
  split; [reflexivity|]. split; [|split].
  - intros Hlen. rewrite Hparse, Hlen. split; [reflexivity|].
    apply length_replicate.
  - intros Hlen Hne. rewrite Hparse.
    apply Nat.eqb_neq in Hne. apply Nat.eqb_eq in Hlen.
    by rewrite Hne, Hlen.
  - intros Hne2 Hne. apply Nat.eqb_neq in Hne2, Hne.
    rewrite Hne2, Hne in Hparse. split; [exact Hparse|]. split.
    + intros. rewrite adam_unfold. fold w0. by rewrite Hparse.
    + intros. rewrite lbfgs_unfold. fold w0. by rewrite Hparse.
Qed.

Lemma parse_bounds_by_length_witness :
  adam sphere JacTrue 0 5 (PyList [PyFloat 0; PyFloat 1; PyFloat 2]) false
    0.01 0.9 0.999 false (world_of [5; 6])
  = (started 0 (world_of [5; 6]), Exn ValueError).
Proof.
  destruct (parse_bounds_by_length sphere JacTrue idle_solver
              (PyList [PyFloat 0; PyFloat 1; PyFloat 2])
              [PyFloat 0; PyFloat 1; PyFloat 2] 0 (world_of [5; 6]) eq_refl)
    as (_ & _ & _ & H).
  destruct H as (_ & Hadam & _); [cbn; lia | cbn; lia |].
  apply Hadam.
Defined.

(** C3 fails on the code where the two accepted shapes overlap.  With two
    parameters, the per-parameter list [[(0, 1), (2, 3)]] has the length of
    the parameter count and holds one (lb, ub) pair per parameter, but the
    2-element branch is tried first: the result repeats the whole list as
    one tuple, from which no (lb, ub) pair of numbers can be read, and
    [adam] run with these bounds stops with an [IndexError] at its first
    clamp. *)
Theorem parse_bounds_misreads_two_pairs :
  let pairs := [PyTuple [PyFloat 0; PyFloat 1]; PyTuple [PyFloat 2; PyFloat 3]] in
  let w := world_of [5; 6] in
  length pairs = params_size w
  ∧ bound_pair <$> pairs = [Some (0, 1); Some (2, 3)]
  ∧ _parse_bounds (PyList pairs) w
    = (w, Val (PyList [PyTuple pairs; PyTuple pairs]))
  ∧ bound_pair (PyTuple pairs) = None
  ∧ (adam sphere JacTrue 0 2 (PyList pairs) false 0.01 0.9 0.999 false w).2
    = Exn IndexError.
Proof. repeat split. Qed.

(** ** [adam] with no iterations *)

(** C7: with [Nepochs = 0] and a bounds argument that parses, [adam]
    returns the start vector (the same array, its contents and the whole
    heap untouched) and an empty trace, and the objective is not called. *)
Theorem adam_zero_epochs objective jac (pstart : loc) (bnds : pyval)
    (disp : bool) (step_size beta1 beta2 : R) (pass_self : bool) (w : world) :
  valid_bounds (length (deref (heap w) pstart)) bnds = true →
  ∃ w',
    adam objective jac pstart 0 bnds disp step_size beta1 beta2 pass_self w
      = (w', Val (pstart, []))
    ∧ heap w' = heap w
    ∧ log w' = log w
    ∧ iteration (self w') = 0%nat.
Proof.
  intros Hvalid. rewrite adam_unfold, parse_bounds_unfold.
  change (params_size (started pstart w))
    with (length (deref (heap w) pstart)).
  destruct bnds as [| | | |l|l]; try discriminate Hvalid; cbn in Hvalid.
  - eexists. split; [reflexivity|]. by cbn.
  - destruct (length l =? 2)%nat.
    + eexists. split; [reflexivity|]. by cbn.
    + cbn in Hvalid. rewrite Hvalid.
      eexists. split; [reflexivity|]. by cbn.
  - destruct (length l =? 2)%nat.
    + eexists. split; [reflexivity|]. by cbn.
    + cbn in Hvalid. rewrite Hvalid.
      eexists. split; [reflexivity|]. by cbn.
Qed.

Lemma adam_zero_epochs_witness :
  ∃ w',
    adam sphere JacTrue 0 0 (PyList [PyFloat 0; PyFloat 1]) false 0.01 0.9
      0.999 false (world_of [5; 6; 7])
      = (w', Val (0%nat, []))
    ∧ heap w' = heap (world_of [5; 6; 7])
    ∧ log w' = log (world_of [5; 6; 7])
    ∧ iteration (self w') = 0%nat.
Proof.
  apply (adam_zero_epochs sphere JacTrue 0 (PyList [PyFloat 0; PyFloat 1])
           false 0.01 0.9 0.999 false (world_of [5; 6; 7])).
  reflexivity.
Defined.

(** ** The L-BFGS-B adapter *)

Lemma bind_Val_inv {A B} (m : M A) (f : A → M B) (w w' : world) (b : B) :
  (m ≫= f) w = (w', Val b) →
  ∃ w1 a, m w = (w1, Val a) ∧ f a w1 = (w', Val b).
Proof.
  rewrite bind_unfold. destruct (m w) as [w1 [a|e]]; [eauto|discriminate].
Qed.

Lemma lbfgs_of_unfold objective (pass_self : bool) (x : loc) (w : world) :
  let p := deref (heap w) x in
  let r := objective p (if pass_self then Some w else None) in
  let w1 := mkWorld (self w) (heap w) (log w ++ [EvObjective p r]) in
  lbfgs_of objective pass_self x w =
    match py_iter r with
    | Val out =>
        match out with
        | v :: _ =>
            (mkWorld (set_of_last (_get_value v) (self w)) (heap w) (log w1),
             Val (PyTuple out))
        | [] => (w1, Exn IndexError)
        end
    | Exn e => (w1, Exn e)
    end.
Proof.
  intros p r w1. unfold lbfgs_of, call_objective. munfold.
  fold p. fold r. destruct (py_iter r) as [[|v out]|e]; reflexivity.
Qed.

(** C5 fails on the code in the separate-gradient mode: the wrapper
    applies [list()] to whatever the objective returns, so a bare scalar
    raises [TypeError] before anything is stored or returned. *)
Theorem lbfgs_of_bare_scalar_raises (v : R) (pass_self : bool) (x : loc)
    (w : world) :
  lbfgs_of (λ _ _, PyFloat v) pass_self x w =
    (mkWorld (self w) (heap w)
       (log w ++ [EvObjective (deref (heap w) x) (PyFloat v)]),
     Exn TypeError).
Proof. rewrite lbfgs_of_unfold. reflexivity. Qed.

(** With a jointly returned (value, gradient) pair the wrapper works: one
    evaluation, the unwrapped value stored, the pair returned. *)
Lemma lbfgs_of_pair objective (pass_self : bool) (x : loc) (w : world)
    (s g : pyval) :
  objective (deref (heap w) x) (if pass_self then Some w else None)
    = PyTuple [s; g] →
  lbfgs_of objective pass_self x w =
    (mkWorld (set_of_last (_get_value s) (self w)) (heap w)
       (log w ++ [EvObjective (deref (heap w) x) (PyTuple [s; g])]),
     Val (PyTuple [s; g])).
Proof. intros Hobj. rewrite lbfgs_of_unfold, Hobj. reflexivity. Qed.

Lemma cb_unfold (xk : loc) (w : world) :
  cb xk w =
    match of_last (self w) with
    | Some v =>
        (mkWorld (set_params xk
                    (set_of_list (of_list (self w) ++ [v])
                       (set_iteration (iteration (self w) + 1) (self w))))
           (heap w) (log w),
         match v with PyFloat _ => Val tt | _ => Exn TypeError end)
    | None =>
        (mkWorld (set_iteration (iteration (self w) + 1) (self w))
           (heap w) (log w),
         Exn AttributeError)
    end.
Proof.
  unfold cb, _disp. munfold.
  destruct (of_last (self w)) as [v|]; [|reflexivity].
  cbn. rewrite last_snoc. destruct v; reflexivity.
Qed.

Lemma run_solver_trace objective jac (pass_self : bool) (t : solver) :
  ∀ (w w' : world) (res : OptimizeResult),
    run_solver objective jac pass_self t w = (w', Val res) →
    ∃ es,
      log w' = log w ++ es
      ∧ of_list (self w') = of_list (self w) ++ replay (of_last (self w)) es
      ∧ length (replay (of_last (self w)) es) = callbacks es
      ∧ iteration (self w') = (iteration (self w) + callbacks es)%nat
      ∧ params (self w') = last_iterate es (params (self w)).
Proof.
  induction t as [res0|xs k IH|x k IH|x k IH|xk k IH]; intros w w' res Hrun.
  - injection Hrun as <- <-. exists []. cbn.
    rewrite !app_nil_r. repeat split; lia.
  - cbn in Hrun. apply bind_Val_inv in Hrun as (w1 & l & Halloc & Hrun).
    injection Halloc as <- <-.
    apply IH in Hrun as (es & ? & ? & ? & ? & ?). by exists es.
  - cbn in Hrun. apply bind_Val_inv in Hrun as (w1 & r & Hof & Hrun).
    rewrite lbfgs_of_unfold in Hof. cbn zeta in Hof.
    set (p := deref (heap w) x) in *.
    set (r0 := objective p _) in *.
    destruct (py_iter r0) as [[|v out]|e] eqn:Hiter; try discriminate Hof.
    injection Hof as <- <-.
    apply IH in Hrun as (es & Hlog & Hof & Hlen & Hit & Hpar).
    cbn in Hlog, Hof, Hlen, Hit, Hpar.
    exists (EvObjective p r0 :: es).
    assert (Hst : stored_value r0 = Val (_get_value v)).
    { unfold stored_value. by rewrite Hiter. }
    cbn. rewrite Hst.
    rewrite Hlog, <- app_assoc. repeat split; done.
  - cbn in Hrun. destruct jac as [|f]; [discriminate Hrun|].
    apply bind_Val_inv in Hrun as (w1 & p & Hread & Hrun).
    injection Hread as <- <-.
    apply IH in Hrun as (es & ? & ? & ? & ? & ?). by exists es.
  - cbn in Hrun.
    apply bind_Val_inv in Hrun as (w1 & [] & Hemit & Hrun).
    injection Hemit as <-.
    apply bind_Val_inv in Hrun as (w2 & [] & Hcb & Hrun).
    rewrite cb_unfold in Hcb. cbn in Hcb.
    destruct (of_last (self w)) as [v|] eqn:Hlast; [|discriminate Hcb].
    injection Hcb as <- Hdisp.
    apply IH in Hrun as (es & Hlog & Hof & Hlen & Hit & Hpar).
    cbn in Hlog, Hof, Hlen, Hit, Hpar. rewrite Hlast in Hof, Hlen.
    exists (EvCallback xk :: es). cbn.
    rewrite Hlog, Hof, Hit, Hpar, <- !app_assoc. cbn.
    repeat split; lia.
Qed.

(** C6: a callback invocation, in a state where the wrapper has stored a
    value, appends exactly that stored value to the trace, adds one to the
    iteration counter and makes the reported iterate the current
    parameters; it neither calls the objective nor touches an array.  So
    when [lbfgs] returns, the returned trace is what the callbacks of the
    run appended: one entry per invocation, each the unwrapped value of
    the evaluation before it. *)
Theorem lbfgs_trace_follows_callbacks objective jac minimize (pstart : loc)
    (N : nat) (bnds : pyval) (disp : bool) (maxfun : nat)
    (pass_self res_store : bool) (w w' : world) (x : loc) (tr : list pyval)
    (res : option OptimizeResult) :
  lbfgs objective jac minimize pstart N bnds disp maxfun pass_self res_store w
    = (w', Val (x, tr, res)) →
  (∀ (xk : loc) (w1 : world) (v : pyval),
     of_last (self w1) = Some v →
     let w2 := (cb xk w1).1 in
     of_list (self w2) = of_list (self w1) ++ [v]
     ∧ iteration (self w2) = (iteration (self w1) + 1)%nat
     ∧ params (self w2) = xk
     ∧ of_last (self w2) = Some v
     ∧ heap w2 = heap w1 ∧ log w2 = log w1)
  ∧ ∃ es,
      log w' = log w ++ es
      ∧ tr = of_list (self w')
      ∧ tr = replay (of_last (self w)) es
      ∧ length tr = callbacks es
      ∧ iteration (self w') = callbacks es
      ∧ params (self w') = last_iterate es pstart.
Proof.
  intros Hrun. split.
  - intros xk w1 v Hlast w2. subst w2. rewrite cb_unfold, Hlast. by cbn.
  - rewrite lbfgs_unfold in Hrun.
    destruct (_parse_bounds bnds (started pstart w)) as [w1 [b|e]] eqn:Hparse;
      [|discriminate Hrun].
    assert (w1 = started pstart w) as ->.
    { rewrite parse_bounds_unfold in Hparse.
      destruct bnds; try discriminate Hparse;
        repeat match type of Hparse with
               | context [if ?c then _ else _] => destruct c
               end; congruence. }
    cbn zeta in Hrun.
    destruct (run_solver _ _ _ _ _) as [w3 [r|e]] eqn:Hsolve;
      [|discriminate Hrun].
    injection Hrun as <- <- <- <-.
    apply run_solver_trace in Hsolve as (es & Hlog & Hof & Hlen & Hit & Hpar).
    cbn in Hlog, Hof, Hlen, Hit, Hpar.
    exists es. rewrite Hof, Hit. repeat split; done.
Qed.

Lemma lbfgs_trace_follows_callbacks_witness :
  let w := world_of [3; 4] in
  let f0 := PyFloat (sum_squares [3; 4]) in
  let w' := mkWorld (mkMinimize 0 PyNone 50 false 1 [f0] (Some f0)) [[3; 4]]
              [EvObjective [3; 4] (sphere [3; 4] None); EvCallback 0] in
  lbfgs sphere JacTrue one_step_solver 0 50 PyNone false 100 false false w
    = (w', Val (0%nat, [f0], None))
  ∧ ∃ es, log w' = log w ++ es ∧ [f0] = replay None es
          ∧ length [f0] = callbacks es.
Proof.
  intros w f0 w'.
  assert (Hrun : lbfgs sphere JacTrue one_step_solver 0 50 PyNone false 100
                   false false w = (w', Val (0%nat, [f0], None)))
    by reflexivity.
  split; [exact Hrun|].
  destruct (lbfgs_trace_follows_callbacks _ _ _ _ _ _ _ _ _ _ _ _ _ _ _ Hrun)
    as (_ & es & Hlog & _ & Hreplay & Hlen & _).
  exists es. repeat split; assumption.
Defined.

(** ** The passes of [adam] *)

Lemma evaluate_unfold objective jac (pass_self : bool) (w : world) :
  let p := deref (heap w) (params (self w)) in
  let r := objective p (if pass_self then Some w else None) in
  let w1 := mkWorld (self w) (heap w) (log w ++ [EvObjective p r]) in
  evaluate objective jac pass_self w =
    (w1, match jac with
         | JacTrue => unpack2 r
         | JacFun f => Val (r, f p (if pass_self then Some w1 else None))
         end).
Proof.
  intros p r w1. unfold evaluate, call_objective. munfold.
  destruct jac as [|f]; cbn; [|reflexivity].
  fold p. fold r. destruct (unpack2 r); reflexivity.
Qed.

(** The first part of a pass, in full: one objective evaluation; the
    counter and the trace are the only attributes it changes. *)
Lemma adam_gradient_unfold objective jac (beta1 beta2 : R) (pass_self : bool)
    (iter : nat) (mv : list R * list R) (w : world) :
  let s1 := set_iteration (iteration (self w) + 1) (self w) in
  let w1 := mkWorld s1 (heap w) (log w) in
  let p := deref (heap w) (params (self w)) in
  let r := objective p (if pass_self then Some w1 else None) in
  let w2 := mkWorld s1 (heap w) (log w ++ [EvObjective p r]) in
  adam_gradient objective jac beta1 beta2 pass_self iter mv w =
    match (match jac with
           | JacTrue => unpack2 r
           | JacFun f => Val (r, f p (if pass_self then Some w2 else None))
           end) with
    | Exn e => (w2, Exn e)
    | Val (of_, g) =>
        let w3 := mkWorld (set_of_list (of_list (self w) ++ [_get_value of_]) s1)
                    (heap w) (log w2) in
        match _get_value of_ with
        | PyFloat _ =>
            (w3, grad ← as_array g;
                 _step_adam grad (moments iter grad mv).1
                   (moments iter grad mv).2 iter beta1 beta2 epsilon_default)
        | _ => (w3, Exn TypeError)
        end
    end.
Proof.
  intros s1 w1 p r w2. unfold adam_gradient.
  rewrite bind_unfold. cbn [modify_self]. fold s1. fold w1.
  rewrite bind_unfold, evaluate_unfold. cbn zeta. cbn [self heap log params].
  change (params s1) with (params (self w)). fold p. fold r. fold w2.
  destruct (match jac with JacTrue => _ | JacFun f => _ end) as [[of_ g]|e];
    [|reflexivity].
  unfold _disp. munfold. rewrite last_snoc.
  destruct (_get_value of_); try reflexivity.
  destruct (as_array g) as [grad|e]; [|reflexivity].
  cbn. unfold moments. destruct (iter =? 0)%nat; [reflexivity|].
  destruct mv; reflexivity.
Qed.

Lemma adam_update_unfold (step_size : R) (iter : nat) (grad_adam : list R)
    (w : world) :
  adam_update step_size iter grad_adam w =
    if steps (Nepochs (self w)) iter
    then match broadcast Rminus (deref (heap w) (params (self w)))
                 (Rmult step_size <$> grad_adam) with
         | Val p' =>
             (mkWorld (set_params (length (heap w)) (self w))
                (heap w ++ [p']) (log w), Val tt)
         | Exn e => (w, Exn e)
         end
    else (w, Val tt).
Proof.
  unfold adam_update, steps. munfold.
  destruct (_ <? _)%Z; [|reflexivity].
  destruct (broadcast _ _ _); reflexivity.
Qed.

Lemma clamp_unfold (w : world) :
  let l := params (self w) in
  clamp w =
    match py_iter (bounds (self w)) with
    | Exn e => (w, Exn e)
    | Val bs =>
        match bounds_column 0 bs ≫= np_array with
        | Exn e => (w, Exn e)
        | Val lbs =>
            match bounds_column 1 bs ≫= np_array with
            | Exn e => (w, Exn e)
            | Val ubs =>
                match masked_assign Rltb (deref (heap w) l) lbs with
                | Exn e => (w, Exn e)
                | Val p1 =>
                    let h1 := <[l := p1]> (heap w) in
                    match masked_assign (λ x ub, Rltb ub x) (deref h1 l) ubs with
                    | Exn e => (mkWorld (self w) h1 (log w), Exn e)
                    | Val p3 =>
                        (mkWorld (self w) (<[l := p3]> h1) (log w), Val tt)
                    end
                end
            end
        end
    end.
Proof.
  intros l. unfold clamp. munfold. subst l.
  destruct (py_iter _) as [bs|e]; [|reflexivity].
  destruct (match bounds_column 0 bs with Val a => _ | Exn e => _ end)
    as [lbs|e]; [|reflexivity].
  destruct (match bounds_column 1 bs with Val a => _ | Exn e => _ end)
    as [ubs|e]; [|reflexivity].
  destruct (masked_assign Rltb _ _) as [p1|e]; [|reflexivity].
  cbn. destruct (masked_assign _ _ _) as [p3|e]; reflexivity.
Qed.

Lemma adam_epoch_unfold objective jac (bnds : pyval)
    (step_size beta1 beta2 : R) (pass_self : bool) (iter : nat)
    (mv : list R * list R) (w : world) :
  adam_epoch objective jac bnds step_size beta1 beta2 pass_self iter mv w =
    match adam_gradient objective jac beta1 beta2 pass_self iter mv w with
    | (w1, Val (grad_adam, mopt, vopt)) =>
        match adam_update step_size iter grad_adam w1 with
        | (w2, Val _) =>
            match adam_clamp bnds w2 with
            | (w3, Val _) => (w3, Val (mopt, vopt))
            | (w3, Exn e) => (w3, Exn e)
            end
        | (w2, Exn e) => (w2, Exn e)
        end
    | (w1, Exn e) => (w1, Exn e)
    end.
Proof.
  unfold adam_epoch. rewrite bind_unfold.
  destruct (adam_gradient _ _ _ _ _ _ _ _) as [w1 [[[ga m] v]|e]];
    [|reflexivity].
  rewrite bind_unfold.
  destruct (adam_update _ _ _ _) as [w2 [[]|e]]; [|reflexivity].
  rewrite bind_unfold.
  destruct (adam_clamp _ _) as [w3 [[]|e]]; reflexivity.
Qed.

(** *** Clamping *)

Lemma deref_insert (h : list (list R)) (l : loc) (xs : list R) :
  deref (<[l := xs]> h) l = if decide (l < length h)%nat then xs else [].
Proof.
  unfold deref. destruct (decide (l < length h)%nat) as [Hlt|Hge].
  - by rewrite list_lookup_insert_eq.
  - rewrite list_insert_ge by lia. by rewrite lookup_ge_None_2 by lia.
Qed.

Lemma deref_dangling (h : list (list R)) (l : loc) :
  (length h ≤ l)%nat → deref h l = [].
Proof. intros Hge. unfold deref. by rewrite lookup_ge_None_2. Qed.

(** Snapping a value to [lb] from below and then to [ub] from above
    leaves it in the interval when [lb <= ub]. *)
Lemma snap_within (x lb ub : R) :
  lb <= ub →
  let x1 := if Rltb x lb then lb else x in
  let x2 := if Rltb ub x1 then ub else x1 in
  lb <= x2 <= ub.
Proof.
  intros Hord x1 x2. subst x1 x2. unfold Rltb.
  destruct (Rlt_dec x lb); destruct (Rlt_dec ub _); lra.
Qed.

Lemma bounds_column_cons_inv (i : nat) (b : pyval) (bs : list pyval)
    (ys : list R) :
  bounds_column i (b :: bs) ≫= np_array = Val ys →
  ∃ y ys', ys = y :: ys' ∧ getitem b i = Val (PyFloat y)
           ∧ bounds_column i bs ≫= np_array = Val ys'.
Proof.
  cbn [bounds_column]. intros H.
  destruct (getitem b i) as [x|e]; [|discriminate H].
  destruct (bounds_column i bs) as [xs|e]; [|discriminate H].
  cbn in H. destruct x; try discriminate H. cbn in H.
  destruct (np_array xs) as [ys'|e] eqn:Hxs; [|discriminate H].
  injection H as <-. exists x, ys'. by cbn.
Qed.

Lemma bounds_column_length (i : nat) (bs : list pyval) (ys : list R) :
  bounds_column i bs ≫= np_array = Val ys → length ys = length bs.
Proof.
  revert ys. induction bs as [|b bs IH]; intros ys H.
  - by injection H as <-.
  - apply bounds_column_cons_inv in H as (y & ys' & -> & _ & H).
    cbn. f_equal. by apply IH.
Qed.

Lemma snapped_in_bounds (bs : list pyval) :
  ∀ (p lbs ubs : list R),
    bounds_column 0 bs ≫= np_array = Val lbs →
    bounds_column 1 bs ≫= np_array = Val ubs →
    length p = length lbs →
    Forall ordered bs →
    in_bounds
      (zip_with (λ x ub, if Rltb ub x then ub else x)
         (zip_with (λ x lb, if Rltb x lb then lb else x) p lbs) ubs) bs.
Proof.
  induction bs as [|b bs IH]; intros p lbs ubs Hlo Hhi Hlen Hord.
  - injection Hlo as <-. destruct p; [|discriminate Hlen]. constructor.
  - apply bounds_column_cons_inv in Hlo as (lb & lbs' & -> & Hlb & Hlo).
    apply bounds_column_cons_inv in Hhi as (ub & ubs' & -> & Hub & Hhi).
    destruct p as [|x p]; [discriminate Hlen|]. injection Hlen as Hlen.
    inversion Hord as [|? ? Hb Hbs]; subst. cbn [zip_with].
    constructor; [|by apply IH].
    unfold ordered, within in *. unfold bound_pair in *.
    rewrite Hlb, Hub in *. by apply snap_within.
Qed.

Lemma masked_assign_Val (cmp : R → R → bool) (p bs p' : list R) :
  masked_assign cmp p bs = Val p' →
  length p = length bs
  ∧ p' = zip_with (λ x b, if cmp x b then b else x) p bs.
Proof.
  unfold masked_assign. destruct (length p =? length bs)%nat eqn:Hlen.
  - apply Nat.eqb_eq in Hlen. intros H. by injection H as <-.
  - destruct (_ || _); discriminate.
Qed.

(** [clamp] writes into the current parameter array and nowhere else. *)
Lemma clamp_frame (w w' : world) (r : outcome unit) :
  clamp w = (w', r) →
  self w' = self w ∧ log w' = log w ∧ length (heap w') = length (heap w)
  ∧ ∀ l, l ≠ params (self w) → heap w' !! l = heap w !! l.
Proof.
  rewrite clamp_unfold. cbn zeta.
  destruct (py_iter _) as [bs|e]; [|by intros [= <- <-]].
  destruct (bounds_column 0 bs ≫= np_array) as [lbs|e]; [|by intros [= <- <-]].
  destruct (bounds_column 1 bs ≫= np_array) as [ubs|e]; [|by intros [= <- <-]].
  destruct (masked_assign Rltb _ _) as [p1|e]; [|by intros [= <- <-]].
  destruct (masked_assign _ _ _) as [p3|e]; intros [= <- <-]; cbn;
    rewrite ?length_insert; repeat split; try done.
  all: intros l Hl; by rewrite ?list_lookup_insert_ne.
Qed.

(** When [clamp] returns, every parameter lies within its bound. *)
Lemma clamp_in_bounds (w w' : world) :
  clamp w = (w', Val tt) →
  ∃ bs, py_iter (bounds (self w)) = Val bs
        ∧ (Forall ordered bs →
           in_bounds (deref (heap w') (params (self w))) bs).
Proof.
  rewrite clamp_unfold. cbn zeta.
  destruct (py_iter _) as [bs|e]; [|discriminate].
  destruct (bounds_column 0 bs ≫= np_array) as [lbs|e] eqn:Hlo; [|discriminate].
  destruct (bounds_column 1 bs ≫= np_array) as [ubs|e] eqn:Hhi; [|discriminate].
  destruct (masked_assign Rltb _ _) as [p1|e] eqn:H1; [|discriminate].
  destruct (masked_assign (λ x ub, Rltb ub x) _ _) as [p3|e] eqn:H3;
    [|discriminate].
  intros H. injection H as <-. exists bs. split; [done|]. intros Hord. cbn.
  apply masked_assign_Val in H1 as [Hlen1 ->].
  apply masked_assign_Val in H3 as [Hlen3 ->].
  rewrite !deref_insert, ?length_insert in *.
  destruct (decide (params (self w) < length (heap w))%nat) as [Hlive|Hdead].
  - by apply snapped_in_bounds.
  - rewrite deref_dangling in Hlen1 by lia.
    apply bounds_column_length in Hlo. rewrite <- Hlen1 in Hlo.
    destruct bs; [constructor|discriminate Hlo].
Qed.

(** *** What one pass does to the world *)

Lemma adam_gradient_frame objective jac (beta1 beta2 : R) (pass_self : bool)
    (iter : nat) (mv : list R * list R) (w w1 : world)
    (r : outcome (list R * list R * list R)) :
  adam_gradient objective jac beta1 beta2 pass_self iter mv w = (w1, r) →
  heap w1 = heap w
  ∧ params (self w1) = params (self w)
  ∧ Nepochs (self w1) = Nepochs (self w)
  ∧ bounds (self w1) = bounds (self w)
  ∧ iteration (self w1) = (iteration (self w) + 1)%nat
  ∧ (∃ p r0, log w1 = log w ++ [EvObjective p r0])
  ∧ (∀ x, r = Val x → ∃ v, of_list (self w1) = of_list (self w) ++ [v]).
Proof.
  rewrite adam_gradient_unfold. cbn zeta.
  destruct (match jac with JacTrue => _ | JacFun f => _ end) as [[of_ g]|e].
  - destruct (_get_value of_); intros [= <- <-]; cbn;
      repeat split; eauto; try discriminate.
  - intros [= <- <-]. cbn. repeat split; eauto; discriminate.
Qed.

Lemma adam_update_frame (step_size : R) (iter : nat) (grad_adam : list R)
    (w w2 : world) (r : outcome unit) :
  adam_update step_size iter grad_adam w = (w2, r) →
  log w2 = log w
  ∧ Nepochs (self w2) = Nepochs (self w)
  ∧ bounds (self w2) = bounds (self w)
  ∧ iteration (self w2) = iteration (self w)
  ∧ of_list (self w2) = of_list (self w)
  ∧ (∀ l xs, heap w !! l = Some xs → heap w2 !! l = Some xs)
  ∧ (r = Val tt →
     if steps (Nepochs (self w)) iter
     then length (heap w2) = S (length (heap w))
          ∧ params (self w2) = length (heap w)
     else heap w2 = heap w ∧ params (self w2) = params (self w))
  ∧ (r ≠ Val tt → w2 = w).
Proof.
  rewrite adam_update_unfold. destruct (steps _ _).
  - destruct (broadcast _ _ _) as [p'|e]; intros [= <- <-]; cbn.
    + repeat split; try done.
      * intros l xs Hl. by apply lookup_app_l_Some.
      * rewrite length_app. cbn. lia.
    + repeat split; try done.
  - intros [= <- <-]. repeat split; done.
Qed.

Lemma adam_clamp_frame (bnds : pyval) (w w' : world) (r : outcome unit) :
  adam_clamp bnds w = (w', r) →
  self w' = self w ∧ log w' = log w ∧ length (heap w') = length (heap w)
  ∧ (∀ l, l ≠ params (self w) → heap w' !! l = heap w !! l)
  ∧ (truthy bnds = false → heap w' = heap w).
Proof.
  unfold adam_clamp. destruct (truthy bnds).
  - intros H. apply clamp_frame in H as (? & ? & ? & ?).
    repeat split; try done.
  - intros [= <- <-]. repeat split; done.
Qed.


Lemma steps_false (N iter : nat) : steps N iter = false ↔ (N ≤ iter + 1)%nat.
Proof. unfold steps. rewrite Z.ltb_ge. lia. Qed.


(** A pass that completes: one evaluation, one trace entry, the counter
    advanced, and a new parameter array exactly when the pass steps. *)
Lemma adam_epoch_Val objective jac (bnds : pyval) (step_size beta1 beta2 : R)
    (pass_self : bool) (iter : nat) (mv mv' : list R * list R)
    (w w' : world) :
  adam_epoch objective jac bnds step_size beta1 beta2 pass_self iter mv w
    = (w', Val mv') →
  Nepochs (self w') = Nepochs (self w)
  ∧ bounds (self w') = bounds (self w)
  ∧ iteration (self w') = (iteration (self w) + 1)%nat
  ∧ (∃ v, of_list (self w') = of_list (self w) ++ [v])
  ∧ (∃ p r0, log w' = log w ++ [EvObjective p r0])
  ∧ (if steps (Nepochs (self w)) iter
     then length (heap w') = S (length (heap w))
          ∧ params (self w') = length (heap w)
     else length (heap w') = length (heap w)
          ∧ params (self w') = params (self w)).
Proof.
  rewrite adam_epoch_unfold.
  destruct (adam_gradient _ _ _ _ _ _ _ _) as [w1 [[[ga m] v]|e]] eqn:Hg;
    [|discriminate].
  destruct (adam_update _ _ _ _) as [w2 [[]|e]] eqn:Hu; [|discriminate].
  destruct (adam_clamp _ _) as [w3 [[]|e]] eqn:Hc; [|discriminate].
  intros [= <- <-].
  apply adam_gradient_frame in Hg as (Hh1 & Hp1 & HN1 & Hb1 & Hi1 & Hl1 & Ho1).
  apply adam_update_frame in Hu as (Hl2 & HN2 & Hb2 & Hi2 & Ho2 & _ & Hs2 & _).
  apply adam_clamp_frame in Hc as (Hs3 & Hl3 & Hh3 & _).
  rewrite Hs3, HN2, Hb2, Hi2, Ho2, Hl3, Hl2, Hh3, HN1. repeat split; try done.
  - by apply (Ho1 (ga, m, v)).
  - specialize (Hs2 eq_refl). rewrite HN1, Hh1, Hp1 in Hs2.
    destruct (steps _ _); destruct Hs2 as [Hs2 Hs2']; [by split|].
    by rewrite Hs2.
Qed.

Lemma adam_loop_cons objective jac (bnds : pyval) (step_size beta1 beta2 : R)
    (pass_self : bool) (iter : nat) (rest : list nat) (mv : list R * list R)
    (w : world) :
  adam_loop objective jac bnds step_size beta1 beta2 pass_self (iter :: rest)
    mv w =
    match adam_epoch objective jac bnds step_size beta1 beta2 pass_self iter
            mv w with
    | (w1, Val mv') =>
        adam_loop objective jac bnds step_size beta1 beta2 pass_self rest mv' w1
    | (w1, Exn e) => (w1, Exn e)
    end.
Proof. reflexivity. Qed.

(** A loop that completes: as many evaluations and trace entries as
    passes, and as many new arrays as stepping passes, the last of them
    the current parameters. *)
Lemma adam_loop_Val objective jac (bnds : pyval) (step_size beta1 beta2 : R)
    (pass_self : bool) (iters : list nat) :
  ∀ (mv mv' : list R * list R) (w w' : world),
    adam_loop objective jac bnds step_size beta1 beta2 pass_self iters mv w
      = (w', Val mv') →
    let n := nsteps (Nepochs (self w)) iters in
    Nepochs (self w') = Nepochs (self w)
    ∧ bounds (self w') = bounds (self w)
    ∧ iteration (self w') = (iteration (self w) + length iters)%nat
    ∧ length (of_list (self w')) = (length (of_list (self w)) + length iters)%nat
    ∧ (∃ es, log w' = log w ++ es ∧ evaluations es = length iters
             ∧ callbacks es = 0%nat)
    ∧ length (heap w') = (length (heap w) + n)%nat
    ∧ params (self w') =
        (if (n =? 0)%nat then params (self w) else length (heap w) + n - 1)%nat.
Proof.
  induction iters as [|iter rest IH]; intros mv mv' w w' Hloop.
  - injection Hloop as <- <-. cbn. repeat split; try lia.
    exists []. by rewrite app_nil_r.
  - rewrite adam_loop_cons in Hloop.
    destruct (adam_epoch _ _ _ _ _ _ _ _ _ _) as [w1 [mv1|e]] eqn:Hep;
      [|discriminate Hloop].
    apply adam_epoch_Val in Hep as (HN & Hb & Hi & [v Ho] & (p & r0 & Hl) & Hs).
    apply IH in Hloop as (HN' & Hb' & Hi' & Ho' & (es & Hl' & Hev & Hcb) & Hh' & Hp').
    cbn zeta. cbn [nsteps length]. rewrite HN in *.
    rewrite HN', Hb', Hi', Ho', Hh', Hp', Hi, Ho, Hb, length_app. cbn [length].
    repeat split; try lia.
    + exists (EvObjective p r0 :: es). rewrite Hl', Hl, <- app_assoc. cbn.
      repeat split; try done; lia.
    + destruct (steps _ iter); destruct Hs as [-> ?]; lia.
    + destruct (steps _ iter); destruct Hs as [Hlen ->]; rewrite ?Hlen;
        destruct (nsteps _ rest); cbn; lia.
Qed.

(** *** Bounds after a pass *)

Lemma adam_epoch_in_bounds objective jac (bnds : pyval)
    (step_size beta1 beta2 : R) (pass_self : bool) (iter : nat)
    (mv mv' : list R * list R) (w w' : world) :
  truthy bnds = true →
  adam_epoch objective jac bnds step_size beta1 beta2 pass_self iter mv w
    = (w', Val mv') →
  ∃ bs, py_iter (bounds (self w)) = Val bs
        ∧ (Forall ordered bs →
           in_bounds (deref (heap w') (params (self w'))) bs).
Proof.
  intros Htruthy. rewrite adam_epoch_unfold.
  destruct (adam_gradient _ _ _ _ _ _ _ _) as [w1 [[[ga m] v]|e]] eqn:Hg;
    [|discriminate].
  destruct (adam_update _ _ _ _) as [w2 [[]|e]] eqn:Hu; [|discriminate].
  destruct (adam_clamp _ _) as [w3 [[]|e]] eqn:Hc; [|discriminate].
  intros [= <- <-].
  apply adam_gradient_frame in Hg as (_ & _ & _ & Hb1 & _).
  apply adam_update_frame in Hu as (_ & _ & Hb2 & _).
  pose proof Hc as Hself. apply adam_clamp_frame in Hself as (Hself & _).
  unfold adam_clamp in Hc. rewrite Htruthy in Hc.
  apply clamp_in_bounds in Hc as (bs & Hbs & Hin).
  exists bs. rewrite Hself, <- Hb1, <- Hb2. by split.
Qed.

Lemma adam_loop_in_bounds objective jac (bnds : pyval)
    (step_size beta1 beta2 : R) (pass_self : bool) (iters : list nat) :
  ∀ (mv mv' : list R * list R) (w w' : world),
    truthy bnds = true →
    iters ≠ [] →
    adam_loop objective jac bnds step_size beta1 beta2 pass_self iters mv w
      = (w', Val mv') →
    ∃ bs, py_iter (bounds (self w)) = Val bs
          ∧ (Forall ordered bs →
             in_bounds (deref (heap w') (params (self w'))) bs).
Proof.
  induction iters as [|iter rest IH]; intros mv mv' w w' Htruthy Hne Hloop;
    [done|].
  rewrite adam_loop_cons in Hloop.
  destruct (adam_epoch _ _ _ _ _ _ _ _ _ _) as [w1 [mv1|e]] eqn:Hep;
    [|discriminate Hloop].
  pose proof Hep as Hb.
  apply adam_epoch_Val in Hb as (_ & Hb & _).
  destruct rest as [|iter' rest].
  - injection Hloop as <- <-. by eapply adam_epoch_in_bounds.
  - apply IH in Hloop as (bs & Hbs & Hin); [|done..].
    exists bs. by rewrite <- Hb.
Qed.

(** *** Arrays that a pass leaves alone *)







Lemma parse_bounds_world (bnds : pyval) (w w1 : world) (r : outcome pyval) :
  _parse_bounds bnds w = (w1, r) → w1 = w.
Proof.
  rewrite parse_bounds_unfold.
  destruct bnds; try (by intros [= <- <-]);
    repeat match goal with
           | |- context [if ?c then _ else _] => destruct c
           end; by intros [= <- <-].
Qed.


(** *** A run of one pass, with bounds *)

Lemma Rltb_true (x y : R) : x < y → Rltb x y = true.
Proof. intros H. unfold Rltb. by destruct (Rlt_dec x y). Qed.

Lemma Rltb_false (x y : R) : y <= x → Rltb x y = false.
Proof. intros H. unfold Rltb. destruct (Rlt_dec x y); [lra|done]. Qed.

(** [adam] with [Nepochs = 1], bounds [[0, 1]] and the start vector [[5]]:
    the single pass does not step, and the clamp writes 1 into the start
    vector itself. *)
Lemma adam_single_pass_example :
  adam sphere JacTrue 0 1 (PyList [PyFloat 0; PyFloat 1]) false 0.01 0.9 0.999
    false (world_of [5])
  = (mkWorld
       (mkMinimize 0 (PyList [PyTuple [PyFloat 0; PyFloat 1]]) 1 false 1
          [PyFloat (sum_squares [5])] None)
       [[1]] [EvObjective [5] (sphere [5] None)],
     Val (0%nat, [PyFloat (sum_squares [5])])).
Proof.
  transitivity
    (mkWorld
       (mkMinimize 0 (PyList [PyTuple [PyFloat 0; PyFloat 1]]) 1 false 1
          [PyFloat (sum_squares [5])] None)
       [[let x1 := if Rltb 5 0 then 0 else 5 in if Rltb 1 x1 then 1 else x1]]
       [EvObjective [5] (sphere [5] None)],
     Val (0%nat, [PyFloat (sum_squares [5])])); [reflexivity|].
  cbn zeta. rewrite (Rltb_false 5 0) by lra. by rewrite (Rltb_true 1 5) by lra.
Qed.

(** *** All passes but the last step *)



Lemma adam_loop_app objective jac (bnds : pyval) (step_size beta1 beta2 : R)
    (pass_self : bool) (xs ys : list nat) :
  ∀ (mv : list R * list R) (w : world),
    adam_loop objective jac bnds step_size beta1 beta2 pass_self (xs ++ ys) mv w
    = match adam_loop objective jac bnds step_size beta1 beta2 pass_self xs
              mv w with
      | (w1, Val mv1) =>
          adam_loop objective jac bnds step_size beta1 beta2 pass_self ys mv1 w1
      | (w1, Exn e) => (w1, Exn e)
      end.
Proof.
  induction xs as [|x xs IH]; intros mv w; [reflexivity|].
  cbn [app]. rewrite !adam_loop_cons.
  destruct (adam_epoch _ _ _ _ _ _ _ _ _ _) as [w1 [mv1|e]]; [|reflexivity].
  apply IH.
Qed.





(** *** Bounds *)

Lemma clamp_values (w w' : world) :
  clamp w = (w', Val tt) →
  ∃ bs lbs ubs,
    py_iter (bounds (self w)) = Val bs
    ∧ bounds_column 0 bs ≫= np_array = Val lbs
    ∧ bounds_column 1 bs ≫= np_array = Val ubs
    ∧ deref (heap w') (params (self w)) =
        zip_with (λ x ub, if Rltb ub x then ub else x)
          (zip_with (λ x lb, if Rltb x lb then lb else x)
             (deref (heap w) (params (self w))) lbs) ubs.
Proof.
  rewrite clamp_unfold. cbn zeta.
  destruct (py_iter _) as [bs|e]; [|discriminate].
  destruct (bounds_column 0 bs ≫= np_array) as [lbs|e] eqn:Hlo; [|discriminate].
  destruct (bounds_column 1 bs ≫= np_array) as [ubs|e] eqn:Hhi; [|discriminate].
  destruct (masked_assign Rltb _ _) as [p1|e] eqn:H1; [|discriminate].
  destruct (masked_assign (λ x ub, Rltb ub x) _ _) as [p3|e] eqn:H3;
    [|discriminate].
  intros H. injection H as <-. exists bs, lbs, ubs. repeat split; try done.
  cbn. apply masked_assign_Val in H1 as [Hlen1 ->].
  apply masked_assign_Val in H3 as [Hlen3 ->].
  rewrite !deref_insert, ?length_insert in *.
  destruct (decide (params (self w) < length (heap w))%nat) as [Hlive|Hdead];
    [done|].
  by rewrite deref_dangling by lia.
Qed.




(** *** Aliasing with the caller's start vector *)




(** * Further properties of the code *)

(** ** [_step_adam] on its own *)

Lemma step_adam_unfold (g m_prev v_prev : list R) (iter : nat)
    (beta1 beta2 epsilon : R) :
  length m_prev = length g →
  length v_prev = length g →
  _step_adam g m_prev v_prev iter beta1 beta2 epsilon
  = Val (step_adam_same_shape g m_prev v_prev iter beta1 beta2 epsilon).
Proof.
  intros Hm Hv. unfold _step_adam, step_adam_same_shape.
  do 2 (rewrite broadcast_same_length by solve_length;
        cbn [mbind outcome_bind]).
  rewrite broadcast_same_length by solve_length.
  reflexivity.
Qed.





Lemma broadcast_Forall (f : R → R → R) (P Q S : R → Prop)
    (xs ys zs : list R) :
  (∀ x y, P x → Q y → S (f x y)) →
  Forall P xs → Forall Q ys →
  broadcast f xs ys = Val zs →
  Forall S zs.
Proof.
  intros Hf Hxs Hys. unfold broadcast.
  destruct (length xs =? length ys)%nat.
  - intros [= <-]. revert ys Hys.
    induction Hxs as [|x xs Hx Hxs IH]; intros ys Hys; [constructor|].
    destruct Hys as [|y ys Hy Hys]; [constructor|].
    cbn. constructor; [by apply Hf|by apply IH].
  - destruct xs as [|x [|x' xs]].
    + destruct ys as [|y [|y' ys]]; try discriminate.
      intros [= <-]. constructor.
    + intros Heq. injection Heq as <-. inversion Hxs; subst.
      apply (Forall_fmap (f x) S ys).
      eapply Forall_impl; [exact Hys|]. cbn. eauto.
    + destruct ys as [|y [|y' ys]]; try discriminate.
      intros Heq. injection Heq as <-. inversion Hys; subst.
      apply (Forall_fmap (λ x0, f x0 y) S (x :: x' :: xs)).
      eapply Forall_impl; [exact Hxs|]. cbn. eauto.
Qed.

Lemma pow_lt_1_succ (b : R) (n : nat) : 0 <= b < 1 → 0 <= b ^ (n + 1) < 1.
Proof.
  intros Hb. induction n as [|n IH]; cbn in *; [lra|]. nra.
Qed.

(** X6: with [0 <= beta2 < 1], a second moment that is nowhere negative
    stays so after [_step_adam], on every shape that broadcasts, and so
    does the bias-corrected value whose square root is taken. *)
Theorem step_adam_second_moment_nonnegative
    (g m_prev v_prev update m v : list R) (iter : nat) (beta1 beta2 epsilon : R) :
  0 <= beta2 < 1 →
  Forall (λ x, 0 <= x) v_prev →
  _step_adam g m_prev v_prev iter beta1 beta2 epsilon = Val (update, m, v) →
  Forall (λ x, 0 <= x) v
  ∧ Forall (λ x, 0 <= x / (1 - beta2 ^ (iter + 1))) v.
Proof.
  intros Hb Hv. unfold _step_adam.
  destruct (broadcast Rplus (Rmult beta1 <$> m_prev) _) as [m'|e];
    [|discriminate].
  cbn [mbind outcome_bind].
  destruct (broadcast Rplus (Rmult beta2 <$> v_prev) _) as [v'|e] eqn:Hbv;
    [|discriminate].
  cbn [mbind outcome_bind].
  destruct (broadcast Rdiv _ _) as [u|e]; [|discriminate].
  intros [= <- <- <-].
  assert (Hv' : Forall (λ x, 0 <= x) v').
  { eapply (broadcast_Forall Rplus (λ x, 0 <= x) (λ x, 0 <= x));
      [| | |exact Hbv].
    - intros x y Hx Hy. lra.
    - apply Forall_fmap. eapply Forall_impl; [exact Hv|]. cbn. intros; nra.
    - unfold np_square. rewrite <- list_fmap_compose. apply Forall_fmap.
      apply Forall_forall. intros x _. cbn.
      pose proof (Rle_0_sqr x). nra. }
  split; [done|].
  eapply Forall_impl; [exact Hv'|]. cbn. intros x Hx.
  pose proof (pow_lt_1_succ beta2 iter Hb).
  apply Rmult_le_pos; [done|]. left. apply Rinv_0_lt_compat. lra.
Qed.

Lemma step_adam_second_moment_nonnegative_witness :
  Forall (λ x, 0 <= x) (step_adam_same_shape [3; -4] [0; 0] [1; 2] 4 0.9 0.999
                           epsilon_default).2.
Proof.
  eapply (step_adam_second_moment_nonnegative [3; -4] [0; 0] [1; 2] _ _ _ 4
            0.9 0.999 epsilon_default); [lra| |by apply step_adam_unfold].
  repeat constructor; lra.
Defined.

(** ** The clamp on its own *)

Lemma bound_pair_Some (b : pyval) (lb ub : R) :
  bound_pair b = Some (lb, ub)
  ↔ getitem b 0 = Val (PyFloat lb) ∧ getitem b 1 = Val (PyFloat ub).
Proof.
  unfold bound_pair. split.
  - destruct (getitem b 0) as [[]|]; try discriminate.
    destruct (getitem b 1) as [[]|]; try discriminate.
    by intros [= -> ->].
  - by intros [-> ->].
Qed.

Lemma bounds_column_cons (i : nat) (b : pyval) (bs : list pyval) (y : R)
    (ys : list R) :
  getitem b i = Val (PyFloat y) →
  bounds_column i bs ≫= np_array = Val ys →
  bounds_column i (b :: bs) ≫= np_array = Val (y :: ys).
Proof.
  intros Hb Hbs. cbn [bounds_column]. rewrite Hb. cbn.
  destruct (bounds_column i bs) as [xs|e]; [|discriminate Hbs].
  cbn in *. by rewrite Hbs.
Qed.

(** What a clamp that returns has done, with the shapes it needed. *)
Lemma clamp_Val_inv (w w' : world) :
  clamp w = (w', Val tt) →
  ∃ bs lbs ubs,
    py_iter (bounds (self w)) = Val bs
    ∧ bounds_column 0 bs ≫= np_array = Val lbs
    ∧ bounds_column 1 bs ≫= np_array = Val ubs
    ∧ length (deref (heap w) (params (self w))) = length lbs
    ∧ deref (heap w') (params (self w)) =
        zip_with (λ x ub, if Rltb ub x then ub else x)
          (zip_with (λ x lb, if Rltb x lb then lb else x)
             (deref (heap w) (params (self w))) lbs) ubs.
Proof.
  intros Hclamp. pose proof Hclamp as Hvalues.
  apply clamp_values in Hvalues as (bs & lbs & ubs & Hbs & Hlo & Hhi & Hval).
  exists bs, lbs, ubs. repeat split; try done.
  rewrite clamp_unfold, Hbs, Hlo, Hhi in Hclamp. cbn zeta in Hclamp.
  destruct (masked_assign Rltb _ _) as [p1|e] eqn:H1; [|discriminate].
  by apply masked_assign_Val in H1 as [Hlen _].
Qed.

Lemma snapped_Forall2 (Pre : pyval → Prop) (Rel : R → pyval → Prop)
    (bs : list pyval) :
  (∀ x lb ub b,
     bound_pair b = Some (lb, ub) → Pre b →
     Rel (let x1 := if Rltb x lb then lb else x in
          if Rltb ub x1 then ub else x1) b) →
  ∀ (p lbs ubs : list R),
    bounds_column 0 bs ≫= np_array = Val lbs →
    bounds_column 1 bs ≫= np_array = Val ubs →
    length p = length lbs →
    Forall Pre bs →
    Forall2 Rel
      (zip_with (λ x ub, if Rltb ub x then ub else x)
         (zip_with (λ x lb, if Rltb x lb then lb else x) p lbs) ubs) bs.
Proof.
  intros Hsnap.
  induction bs as [|b bs IH]; intros p lbs ubs Hlo Hhi Hlen Hpre.
  - injection Hlo as <-. destruct p; [|discriminate Hlen]. constructor.
  - apply bounds_column_cons_inv in Hlo as (lb & lbs' & -> & Hlb & Hlo).
    apply bounds_column_cons_inv in Hhi as (ub & ubs' & -> & Hub & Hhi).
    destruct p as [|x p]; [discriminate Hlen|]. injection Hlen as Hlen.
    inversion Hpre as [|? ? Hb Hbs]; subst. cbn [zip_with].
    constructor; [|by apply IH].
    apply (Hsnap x lb ub b); [by apply bound_pair_Some|done].
Qed.

Lemma insert_deref (h : list (list R)) (l : loc) : <[l := deref h l]> h = h.
Proof.
  unfold deref. destruct (h !! l) as [xs|] eqn:Hl; cbn.
  - by apply list_insert_id.
  - apply list_insert_ge. by apply lookup_ge_None.
Qed.

Lemma in_bounds_columns (p : list R) (bs : list pyval) :
  in_bounds p bs →
  ∃ lbs ubs,
    bounds_column 0 bs ≫= np_array = Val lbs
    ∧ bounds_column 1 bs ≫= np_array = Val ubs
    ∧ length lbs = length p ∧ length ubs = length p
    ∧ zip_with (λ x lb, if Rltb x lb then lb else x) p lbs = p
    ∧ zip_with (λ x ub, if Rltb ub x then ub else x) p ubs = p.
Proof.
  induction 1 as [|x b p bs Hw _ (lbs & ubs & Hlo & Hhi & Hl1 & Hl2 & Hz1 & Hz2)].
  - by exists [], [].
  - unfold within in Hw.
    destruct (bound_pair b) as [[lb ub]|] eqn:Hb; [|done].
    apply bound_pair_Some in Hb as [Hlb Hub].
    exists (lb :: lbs), (ub :: ubs).
    rewrite (bounds_column_cons 0 b bs lb lbs Hlb Hlo).
    rewrite (bounds_column_cons 1 b bs ub ubs Hub Hhi).
    cbn. rewrite Hl1, Hl2, Hz1, Hz2.
    rewrite (Rltb_false x lb), (Rltb_false ub x) by lra. done.
Qed.

Lemma clamp_inside (w : world) (bs : list pyval) :
  py_iter (bounds (self w)) = Val bs →
  in_bounds (deref (heap w) (params (self w))) bs →
  clamp w = (w, Val tt).
Proof.
  intros Hbs Hin. rewrite clamp_unfold, Hbs. cbn zeta.
  apply in_bounds_columns in Hin
    as (lbs & ubs & -> & -> & Hl1 & Hl2 & Hz1 & Hz2).
  unfold masked_assign at 1. rewrite <- Hl1, Nat.eqb_refl, Hz1.
  rewrite insert_deref.
  unfold masked_assign. rewrite <- Hl2, Nat.eqb_refl, Hz2, insert_deref.
  by destruct w.
Qed.

(** X7: the clamp leaves a parameter vector that lies within its bounds
    exactly as it is (the world does not change at all), and when every
    pair has [lb <= ub] a second clamp after a first changes nothing. *)
Theorem clamp_is_identity_inside_bounds (w : world) (bs : list pyval) :
  py_iter (bounds (self w)) = Val bs →
  (in_bounds (deref (heap w) (params (self w))) bs → clamp w = (w, Val tt))
  ∧ (∀ w1, Forall ordered bs → clamp w = (w1, Val tt) →
           clamp w1 = (w1, Val tt)).
Proof.
  intros Hbs. split; [by apply clamp_inside|].
  intros w1 Hord Hclamp.
  pose proof Hclamp as Hframe. apply clamp_frame in Hframe as (Hself & _).
  apply clamp_in_bounds in Hclamp as (bs' & Hbs' & Hin).
  rewrite Hbs in Hbs'. injection Hbs' as <-.
  apply (clamp_inside w1 bs); rewrite Hself; [done|by apply Hin].
Qed.

Lemma clamp_is_identity_inside_bounds_witness :
  let w := mkWorld (mkMinimize 0 (PyList [PyTuple [PyFloat 0; PyFloat 1]]) 1
                      false 0 [] None) [[0.5]] [] in
  clamp w = (w, Val tt).
Proof.
  intros w.
  destruct (clamp_is_identity_inside_bounds w
              [PyTuple [PyFloat 0; PyFloat 1]] eq_refl) as [Hinside _].
  apply Hinside.
  constructor; [|constructor]. unfold within. cbn. lra.
Defined.

(** X8: a pair with [lb > ub] is not rejected: the two masked assignments
    run one after the other, so when every pair is inverted a clamp that
    returns has set every parameter to its upper bound. *)
Theorem clamp_inverted_bounds_give_upper_bound (w w' : world)
    (bs : list pyval) :
  py_iter (bounds (self w)) = Val bs →
  Forall (λ b, ∃ lb ub, bound_pair b = Some (lb, ub) ∧ ub < lb) bs →
  clamp w = (w', Val tt) →
  Forall2 (λ x b, ∃ lb ub, bound_pair b = Some (lb, ub) ∧ x = ub)
    (deref (heap w') (params (self w))) bs.
Proof.
  intros Hbs Hinv Hclamp.
  apply clamp_Val_inv in Hclamp
    as (bs' & lbs & ubs & Hbs' & Hlo & Hhi & Hlen & ->).
  rewrite Hbs in Hbs'. injection Hbs' as <-.
  refine (snapped_Forall2 _ _ bs _ _ lbs ubs Hlo Hhi Hlen Hinv).
  intros x lb ub b Hb (lb' & ub' & Hb' & Hlt).
  rewrite Hb in Hb'. injection Hb' as <- <-.
  exists lb, ub. split; [done|]. cbn zeta. unfold Rltb.
  destruct (Rlt_dec x lb); destruct (Rlt_dec ub _); lra.
Qed.

Lemma clamp_inverted_bounds_give_upper_bound_witness :
  let w := mkWorld (mkMinimize 0 (PyList [PyTuple [PyFloat 1; PyFloat 0]]) 1
                      false 0 [] None) [[5]] [] in
  Forall2 (λ x b, ∃ lb ub, bound_pair b = Some (lb, ub) ∧ x = ub)
    (deref (heap (clamp w).1) 0) [PyTuple [PyFloat 1; PyFloat 0]].
Proof.
  intros w.
  apply (clamp_inverted_bounds_give_upper_bound w (clamp w).1
           [PyTuple [PyFloat 1; PyFloat 0]]); [reflexivity| |reflexivity].
  constructor; [|constructor]. exists 1, 0. split; [reflexivity|lra].
Defined.

(** ** The trace of [adam] *)

(** A first part of a pass that returns: what was evaluated, recorded and
    computed. *)
Lemma adam_gradient_Val objective jac (beta1 beta2 : R) (pass_self : bool)
    (iter : nat) (mv : list R * list R) (w w1 : world)
    (grad_adam mopt vopt : list R) :
  adam_gradient objective jac beta1 beta2 pass_self iter mv w
    = (w1, Val (grad_adam, mopt, vopt)) →
  ∃ r v grad,
    log w1 = log w ++ [EvObjective (deref (heap w) (params (self w))) r]
    ∧ objective_value jac r = Val v
    ∧ of_list (self w1) = of_list (self w) ++ [_get_value v]
    ∧ _step_adam grad (moments iter grad mv).1 (moments iter grad mv).2 iter
        beta1 beta2 epsilon_default = Val (grad_adam, mopt, vopt).
Proof.
  rewrite adam_gradient_unfold. cbn zeta.
  set (p := deref (heap w) (params (self w))).
  set (r := objective p _).
  destruct jac as [|f]; unfold objective_value.
  - destruct (unpack2 r) as [[of_ g]|e] eqn:Hun; [|discriminate].
    destruct (_get_value of_) eqn:Hv; try discriminate.
    destruct (as_array g) as [grad|e]; [|discriminate].
    cbn [mbind outcome_bind]. intros [= <- Hstep].
    exists r, of_, grad. cbn. by rewrite Hv, Hun.
  - destruct (_get_value r) eqn:Hv; try discriminate.
    destruct (as_array _) as [grad|e]; [|discriminate].
    cbn [mbind outcome_bind]. intros [= <- Hstep].
    exists r, r, grad. cbn. by rewrite Hv.
Qed.

Lemma adam_epoch_trace objective jac (bnds : pyval) (step_size beta1 beta2 : R)
    (pass_self : bool) (iter : nat) (mv mv' : list R * list R)
    (w w' : world) :
  adam_epoch objective jac bnds step_size beta1 beta2 pass_self iter mv w
    = (w', Val mv') →
  ∃ r v,
    log w' = log w ++ [EvObjective (deref (heap w) (params (self w))) r]
    ∧ objective_value jac r = Val v
    ∧ of_list (self w') = of_list (self w) ++ [_get_value v].
Proof.
  rewrite adam_epoch_unfold.
  destruct (adam_gradient _ _ _ _ _ _ _ _) as [w1 [[[ga m] v]|e]] eqn:Hg;
    [|discriminate].
  destruct (adam_update _ _ _ _) as [w2 [[]|e]] eqn:Hu; [|discriminate].
  destruct (adam_clamp _ _) as [w3 [[]|e]] eqn:Hc; [|discriminate].
  intros [= <- <-].
  apply adam_gradient_Val in Hg as (r & v0 & grad & Hlog & Hval & Hof & _).
  apply adam_update_frame in Hu as (Hl2 & _ & _ & _ & Ho2 & _).
  apply adam_clamp_frame in Hc as (Hs3 & Hl3 & _).
  exists r, v0. by rewrite Hs3, Hl3, Hl2, Ho2.
Qed.

Lemma trace_of_app (jac : jac_mode) (es es' : list event) :
  trace_of jac (es ++ es') = trace_of jac es ++ trace_of jac es'.
Proof.
  induction es as [|[p r|xk] es IH]; cbn; [done| |done].
  destruct (objective_value jac r); by rewrite ?IH.
Qed.

Lemma adam_loop_trace objective jac (bnds : pyval) (step_size beta1 beta2 : R)
    (pass_self : bool) (iters : list nat) :
  ∀ (mv mv' : list R * list R) (w w' : world),
    adam_loop objective jac bnds step_size beta1 beta2 pass_self iters mv w
      = (w', Val mv') →
    ∃ es,
      log w' = log w ++ es
      ∧ of_list (self w') = of_list (self w) ++ trace_of jac es
      ∧ length es = length iters
      ∧ (∀ e, es !! 0%nat = Some e →
              ∃ r, e = EvObjective (deref (heap w) (params (self w))) r).
Proof.
  induction iters as [|iter rest IH]; intros mv mv' w w' Hloop.
  - injection Hloop as <- <-. exists []. rewrite !app_nil_r.
    repeat split; try done.
  - rewrite adam_loop_cons in Hloop.
    destruct (adam_epoch _ _ _ _ _ _ _ _ _ _) as [w1 [mv1|e]] eqn:Hep;
      [|discriminate Hloop].
    apply adam_epoch_trace in Hep as (r & v & Hlog & Hval & Hof).
    apply IH in Hloop as (es & Hlog' & Hof' & Hlen & _).
    exists (EvObjective (deref (heap w) (params (self w))) r :: es).
    rewrite Hlog', Hlog, Hof', Hof, <- !app_assoc. cbn. rewrite Hval, Hlen.
    repeat split; try done. intros e [= <-]. by exists r.
Qed.

(** X3: when [adam] returns, its trace is the list of the unwrapped
    objective values of the objective calls of the run, in order: one
    entry per call, [Nepochs] calls, the first of them at the start
    vector. *)
Theorem adam_trace_records_every_evaluation objective jac (pstart : loc)
    (N : nat) (bnds : pyval) (disp : bool) (step_size beta1 beta2 : R)
    (pass_self : bool) (w w' : world) (x : loc) (tr : list pyval) :
  adam objective jac pstart N bnds disp step_size beta1 beta2 pass_self w
    = (w', Val (x, tr)) →
  ∃ es,
    log w' = log w ++ es
    ∧ tr = trace_of jac es
    ∧ length es = N ∧ length tr = N
    ∧ (∀ e, es !! 0%nat = Some e →
            ∃ r, e = EvObjective (deref (heap w) pstart) r).
Proof.
  rewrite adam_unfold.
  destruct (_parse_bounds bnds _) as [w1 [b|e]] eqn:Hparse; [|discriminate].
  apply parse_bounds_world in Hparse as ->. cbn zeta.
  destruct (adam_loop _ _ _ _ _ _ _ _ _ _) as [w3 [mv|e]] eqn:Hloop;
    [|discriminate].
  intros [= <- <- <-].
  pose proof Hloop as Hcount.
  apply adam_loop_Val in Hcount as (_ & _ & _ & Hcount & _).
  apply adam_loop_trace in Hloop as (es & Hlog & Hof & Hlen & Hfirst).
  cbn in Hlog, Hof, Hcount, Hfirst. rewrite length_seq in *.
  exists es. repeat split; done.
Qed.

Lemma adam_trace_records_every_evaluation_witness :
  ∃ es,
    [EvObjective [5] (sphere [5] None)] = [] ++ es
    ∧ [PyFloat (sum_squares [5])] = trace_of JacTrue es
    ∧ length es = 1%nat ∧ length [PyFloat (sum_squares [5])] = 1%nat
    ∧ (∀ e, es !! 0%nat = Some e → ∃ r, e = EvObjective [5] r).
Proof.
  exact (adam_trace_records_every_evaluation _ _ _ _ _ _ _ _ _ _ _ _ _ _
           adam_single_pass_example).
Defined.

Lemma parse_bounds_entries (bnds b : pyval) (w w1 : world) :
  _parse_bounds bnds w = (w1, Val b) →
  truthy bnds = true →
  py_iter b = Val (bound_entries (params_size w) bnds).
Proof.
  rewrite parse_bounds_unfold. unfold bound_entries.
  destruct bnds as [| | | |l|l]; try discriminate; intros Hparse _.
  all: destruct (length l =? 2)%nat; [by injection Hparse as <- <-|].
  all: destruct (length l =? _)%nat; [|discriminate Hparse].
  all: by injection Hparse as <- <-.
Qed.

Lemma in_bounds_ordered (p : list R) (bs : list pyval) :
  in_bounds p bs → Forall ordered bs.
Proof.
  induction 1 as [|x b p bs Hw _ IH]; constructor; [|done].
  unfold within, ordered in *.
  destruct (bound_pair b) as [[lb ub]|]; [lra|done].
Qed.

(** A pass that does not step and finds the parameters within their
    bounds (or has no bounds) leaves the parameter array as it is. *)
Lemma adam_epoch_probe_unchanged objective jac (bnds : pyval)
    (step_size beta1 beta2 : R) (pass_self : bool) (iter : nat)
    (mv mv' : list R * list R) (w w' : world) :
  steps (Nepochs (self w)) iter = false →
  truthy bnds = false
  ∨ (∃ bs, py_iter (bounds (self w)) = Val bs
           ∧ in_bounds (deref (heap w) (params (self w))) bs) →
  adam_epoch objective jac bnds step_size beta1 beta2 pass_self iter mv w
    = (w', Val mv') →
  heap w' = heap w ∧ params (self w') = params (self w).
Proof.
  intros Hsteps Hcase. rewrite adam_epoch_unfold.
  destruct (adam_gradient _ _ _ _ _ _ _ _) as [w1 [[[ga m] v]|e]] eqn:Hg;
    [|discriminate].
  destruct (adam_update _ _ _ _) as [w2 [[]|e]] eqn:Hu; [|discriminate].
  destruct (adam_clamp _ _) as [w3 [[]|e]] eqn:Hc; [|discriminate].
  intros [= <- <-].
  apply adam_gradient_frame in Hg as (Hh1 & Hp1 & HN1 & Hb1 & _).
  apply adam_update_frame in Hu as (_ & _ & Hb2 & _ & _ & _ & Hs2 & _).
  specialize (Hs2 eq_refl). rewrite HN1, Hsteps in Hs2.
  destruct Hs2 as [Hh2 Hp2].
  destruct Hcase as [Hfalsy|(bs & Hbs & Hin)].
  - apply adam_clamp_frame in Hc as (Hs3 & _ & _ & _ & Hh3).
    rewrite Hs3, Hh3 by done. by rewrite Hh2, Hp2, Hh1, Hp1.
  - unfold adam_clamp in Hc. destruct (truthy bnds).
    + rewrite (clamp_inside w2 bs) in Hc.
      * injection Hc as <-. by rewrite Hh2, Hp2, Hh1, Hp1.
      * by rewrite Hb2, Hb1.
      * by rewrite Hh2, Hp2, Hh1, Hp1.
    + injection Hc as <-. by rewrite Hh2, Hp2, Hh1, Hp1.
Qed.

(** X4: in a run of at least one pass that returns, the last objective
    call was made at the parameters that [adam] returns, and the last
    trace entry is its unwrapped value, provided the last clamp has
    nothing to do: there are no bounds, or an earlier pass has clamped
    already (two passes or more, [lb <= ub] in every pair), or the start
    vector lies within the bounds. *)
Theorem adam_last_entry_is_objective_at_result objective jac (pstart : loc)
    (N : nat) (bnds : pyval) (disp : bool) (step_size beta1 beta2 : R)
    (pass_self : bool) (w w' : world) (x : loc) (tr : list pyval) :
  (1 ≤ N)%nat →
  truthy bnds = false
  ∨ ((2 ≤ N)%nat
     ∧ Forall ordered (bound_entries (length (deref (heap w) pstart)) bnds))
  ∨ in_bounds (deref (heap w) pstart)
      (bound_entries (length (deref (heap w) pstart)) bnds) →
  adam objective jac pstart N bnds disp step_size beta1 beta2 pass_self w
    = (w', Val (x, tr)) →
  ∃ es r v,
    log w' = log w ++ es ++ [EvObjective (deref (heap w') x) r]
    ∧ objective_value jac r = Val v
    ∧ last tr = Some (_get_value v).
Proof.
  intros HN Hcase. rewrite adam_unfold.
  destruct (_parse_bounds bnds _) as [w1 [b|e]] eqn:Hparse; [|discriminate].
  pose proof Hparse as Hw1. apply parse_bounds_world in Hw1 as ->. cbn zeta.
  set (w2 := mkWorld _ _ _).
  replace (seq 0 N) with (seq 0 (N - 1) ++ [(N - 1)%nat]).
  2:{ replace N with (N - 1 + 1)%nat at 3 by lia. by rewrite seq_app. }
  rewrite adam_loop_app.
  destruct (adam_loop _ _ _ _ _ _ _ (seq 0 (N - 1)) _ _) as [w3 [mv3|e]]
    eqn:Hloop; [|discriminate].
  rewrite adam_loop_cons.
  destruct (adam_epoch _ _ _ _ _ _ _ _ _ _) as [w4 [mv4|e]] eqn:Hep;
    [|discriminate].
  intros [= <- <- <-].
  pose proof Hloop as Hval.
  apply adam_loop_Val in Hval as (HN3 & Hb3 & _).
  pose proof Hloop as Htrace.
  apply adam_loop_trace in Htrace as (es & Hlog3 & Hof3 & _).
  pose proof Hep as Hlast.
  apply adam_epoch_trace in Hlast as (r & v & Hlog4 & Hval4 & Hof4).
  assert (Hsame : heap w4 = heap w3 ∧ params (self w4) = params (self w3)).
  { eapply adam_epoch_probe_unchanged; [| |exact Hep].
    { rewrite HN3. apply steps_false. cbn. lia. }
    destruct (truthy bnds) eqn:Htruthy; [right|by left].
    pose proof (parse_bounds_entries _ _ _ _ Hparse Htruthy) as Hentries.
    change (params_size (started pstart w))
      with (length (deref (heap w) pstart)) in Hentries.
    exists (bound_entries (length (deref (heap w) pstart)) bnds).
    rewrite Hb3. split; [exact Hentries|].
    destruct Hcase as [?|[[HN2 Hord]|Hin]]; [done| |].
    - apply adam_loop_in_bounds in Hloop as (bs & Hbs & Hin); [|done|].
      + cbn in Hbs. rewrite Hentries in Hbs. injection Hbs as <-.
        by apply Hin.
      + destruct N as [|[|N]]; [lia..|discriminate].
    - destruct (decide (N = 1%nat)) as [->|HN1].
      + cbn in Hloop. by injection Hloop as <- <-.
      + apply adam_loop_in_bounds in Hloop as (bs & Hbs & Hin'); [|done|].
        * cbn in Hbs. rewrite Hentries in Hbs. injection Hbs as <-.
          by eapply Hin', in_bounds_ordered.
        * destruct N as [|[|N]]; [lia..|discriminate]. }
  destruct Hsame as [Hh4 Hp4].
  exists es, r, v. rewrite Hh4, Hp4, Hlog4, Hlog3, Hof4, <- app_assoc.
  repeat split; try done. apply last_snoc.
Qed.

(** [adam] with [Nepochs = 1], no bounds and the start vector [[5]]. *)
Lemma adam_unbounded_pass_example :
  adam sphere JacTrue 0 1 PyNone false 0.01 0.9 0.999 false (world_of [5])
  = (mkWorld
       (mkMinimize 0 PyNone 1 false 1 [PyFloat (sum_squares [5])] None)
       [[5]] [EvObjective [5] (sphere [5] None)],
     Val (0%nat, [PyFloat (sum_squares [5])])).
Proof. reflexivity. Qed.

Lemma adam_last_entry_is_objective_at_result_witness :
  ∃ es r v,
    [EvObjective [5] (sphere [5] None)] = [] ++ es ++ [EvObjective [5] r]
    ∧ objective_value JacTrue r = Val v
    ∧ last [PyFloat (sum_squares [5])] = Some (_get_value v).
Proof.
  assert (Hcase : truthy PyNone = false
                  ∨ ((2 ≤ 1)%nat ∧ Forall ordered (bound_entries 1 PyNone))
                  ∨ in_bounds [5] (bound_entries 1 PyNone))
    by (left; reflexivity).
  exact (adam_last_entry_is_objective_at_result sphere JacTrue 0 1 PyNone
           false 0.01 0.9 0.999 false (world_of [5]) _ _ _ (le_n 1) Hcase
           adam_unbounded_pass_example).
Defined.

(** ** Errors and bounds in whole runs of [adam] *)

Lemma parse_bounds_valid (bnds : pyval) (w : world) :
  valid_bounds (params_size w) bnds = true →
  ∃ b, _parse_bounds bnds w = (w, Val b).
Proof.
  rewrite parse_bounds_unfold. unfold valid_bounds.
  destruct bnds as [| | | |l|l]; try discriminate; eauto.
  all: destruct (length l =? 2)%nat; [eauto|]; cbn; intros ->; eauto.
Qed.

(** X9: in the joint mode ([jac == True]) an objective that returns a bare
    number cannot be unpacked: a run of at least one pass raises
    [TypeError] in its first pass, after one objective call, with the
    iteration counter at 1, nothing in the trace and no array touched. *)
Theorem adam_joint_mode_needs_a_pair objective (pstart : loc) (N : nat)
    (bnds : pyval) (disp : bool) (step_size beta1 beta2 : R)
    (pass_self : bool) (w : world) :
  (1 ≤ N)%nat →
  valid_bounds (length (deref (heap w) pstart)) bnds = true →
  (∀ p view, ∃ v, objective p view = PyFloat v) →
  ∃ w' r,
    adam objective JacTrue pstart N bnds disp step_size beta1 beta2 pass_self w
      = (w', Exn TypeError)
    ∧ log w' = log w ++ [EvObjective (deref (heap w) pstart) (PyFloat r)]
    ∧ iteration (self w') = 1%nat
    ∧ of_list (self w') = []
    ∧ params (self w') = pstart
    ∧ heap w' = heap w.
Proof.
  intros HN Hvalid Hobj. rewrite adam_unfold.
  destruct (parse_bounds_valid bnds (started pstart w) Hvalid) as [b ->].
  cbn zeta. destruct N as [|N]; [lia|]. cbn [seq].
  rewrite adam_loop_cons, adam_epoch_unfold, adam_gradient_unfold.
  unfold started. cbn.
  match goal with
  | |- context [objective ?p ?view] => destruct (Hobj p view) as [v ->]
  end.
  cbn. eexists _, v. repeat split.
Qed.

Lemma adam_joint_mode_needs_a_pair_witness :
  ∃ w' r,
    adam (λ p _, PyFloat (sum_squares p)) JacTrue 0 3 PyNone false 0.01 0.9
      0.999 false (world_of [5])
      = (w', Exn TypeError)
    ∧ log w' = log (world_of [5]) ++ [EvObjective [5] (PyFloat r)]
    ∧ iteration (self w') = 1%nat
    ∧ of_list (self w') = []
    ∧ params (self w') = 0%nat
    ∧ heap w' = heap (world_of [5]).
Proof.
  apply (adam_joint_mode_needs_a_pair (λ p _, PyFloat (sum_squares p)) 0 3
           PyNone false 0.01 0.9 0.999 false (world_of [5]));
    [lia|reflexivity|].
  intros p view. by eexists.
Defined.




(** ** Runs that return *)















(** ** The first step *)




(** ** Independence from earlier runs *)

Lemma insensitive_bind {A B} (m : M A) (f : A → M B) :
  insensitive m → (∀ a, insensitive (f a)) → insensitive (m ≫= f).
Proof.
  intros Hm Hf w. rewrite !bind_unfold.
  destruct (Hm w) as [Hr Hw].
  destruct (m (erase w)) as [w1e r1e], (m w) as [w1 r1]. cbn in Hr, Hw.
  subst r1e. destruct r1 as [a|e]; [|by split].
  destruct (Hf a w1e) as [Hr1 Hw1], (Hf a w1) as [Hr2 Hw2].
  rewrite Hw in Hr1, Hw1. split; congruence.
Qed.

Lemma insensitive_ret {A} (a : A) : insensitive (mret a : M A).
Proof. by intros w. Qed.

Lemma adam_gradient_insensitive objective jac (beta1 beta2 : R) (iter : nat)
    (mv : list R * list R) :
  insensitive (adam_gradient objective jac beta1 beta2 false iter mv).
Proof.
  intros w. rewrite !adam_gradient_unfold. cbn zeta. cbn [erase self heap params].
  destruct (match jac with JacTrue => _ | JacFun f => _ end) as [[of_ g]|e];
    [|by split].
  destruct (_get_value of_); by split.
Qed.

Lemma adam_update_insensitive (step_size : R) (iter : nat) (ga : list R) :
  insensitive (adam_update step_size iter ga).
Proof.
  intros w. rewrite !adam_update_unfold. cbn [erase self heap params Nepochs].
  destruct (steps _ _); [|by split].
  destruct (broadcast _ _ _); by split.
Qed.

Lemma adam_clamp_insensitive (bnds : pyval) : insensitive (adam_clamp bnds).
Proof.
  intros w. unfold adam_clamp. destruct (truthy bnds); [|by split].
  rewrite !clamp_unfold. cbn zeta. cbn [erase self heap params bounds].
  destruct (py_iter _) as [bs|e]; [|by split].
  destruct (bounds_column 0 bs ≫= np_array) as [lbs|e]; [|by split].
  destruct (bounds_column 1 bs ≫= np_array) as [ubs|e]; [|by split].
  destruct (masked_assign Rltb _ _) as [p1|e]; [|by split].
  destruct (masked_assign (λ x ub, Rltb ub x) _ _) as [p3|e]; by split.
Qed.

Lemma adam_loop_insensitive objective jac (bnds : pyval)
    (step_size beta1 beta2 : R) (iters : list nat) :
  ∀ mv, insensitive
          (adam_loop objective jac bnds step_size beta1 beta2 false iters mv).
Proof.
  induction iters as [|iter rest IH]; intros mv; cbn [adam_loop].
  - apply insensitive_ret.
  - apply insensitive_bind; [|exact IH].
    unfold adam_epoch. apply insensitive_bind.
    { apply adam_gradient_insensitive. }
    intros [[ga m] v]. apply insensitive_bind.
    { apply adam_update_insensitive. }
    intros _. apply insensitive_bind.
    { apply adam_clamp_insensitive. }
    intros _. apply insensitive_ret.
Qed.

Lemma parse_bounds_outcome (bnds : pyval) (w w' : world) :
  params_size w = params_size w' →
  (_parse_bounds bnds w).2 = (_parse_bounds bnds w').2.
Proof.
  intros Hsize. rewrite !parse_bounds_unfold, Hsize.
  destruct bnds; try done;
    repeat match goal with
           | |- context [if ?c then _ else _] => destruct c
           end; done.
Qed.

(** X13: without [pass_self], a run of [adam] depends on the instance it
    runs on only through the arrays: started from two worlds with the same
    heap, whatever earlier runs left in the counter, the trace, the
    bounds and the stored value, it ends the same way (the same exception,
    or the same returned array and trace) and leaves the same heap. *)
Theorem adam_runs_are_independent objective jac (pstart : loc) (N : nat)
    (bnds : pyval) (disp : bool) (step_size beta1 beta2 : R) (w1 w2 : world) :
  heap w1 = heap w2 →
  (adam objective jac pstart N bnds disp step_size beta1 beta2 false w1).2
  = (adam objective jac pstart N bnds disp step_size beta1 beta2 false w2).2
  ∧ heap (adam objective jac pstart N bnds disp step_size beta1 beta2 false w1).1
    = heap (adam objective jac pstart N bnds disp step_size beta1 beta2 false w2).1.
Proof.
  intros Hheap. rewrite !adam_unfold.
  assert (Hsize : params_size (started pstart w1) = params_size (started pstart w2))
    by (unfold params_size, started; cbn; by rewrite Hheap).
  apply (parse_bounds_outcome bnds) in Hsize.
  destruct (_parse_bounds bnds (started pstart w1)) as [a1 r1] eqn:H1.
  destruct (_parse_bounds bnds (started pstart w2)) as [a2 r2] eqn:H2.
  apply parse_bounds_world in H1 as ->. apply parse_bounds_world in H2 as ->.
  cbn in Hsize. subst r2. destruct r1 as [b|e]; [|by cbn].
  cbn zeta. cbn [started self heap log params set_params of_last].
  set (u1 := mkWorld _ (heap w1) _). set (u2 := mkWorld _ (heap w2) _).
  assert (Herase : erase u1 = erase u2) by (unfold erase, u1, u2; cbn; by rewrite Hheap).
  pose proof (adam_loop_insensitive objective jac bnds step_size beta1 beta2
                (seq 0 N) ([], []) u1) as [Hr1 Hw1].
  pose proof (adam_loop_insensitive objective jac bnds step_size beta1 beta2
                (seq 0 N) ([], []) u2) as [Hr2 Hw2].
  rewrite Herase in Hr1, Hw1. rewrite Hr2 in Hr1. rewrite Hw2 in Hw1.
  destruct (adam_loop _ _ _ _ _ _ _ _ _ u1) as [v1 r1].
  destruct (adam_loop _ _ _ _ _ _ _ _ _ u2) as [v2 r2].
  cbn in Hr1, Hw1. subst r2.
  assert (heap v1 = heap v2 ∧ params (self v1) = params (self v2)
          ∧ of_list (self v1) = of_list (self v2)) as (Hh & Hp & Ho).
  { pose proof (f_equal heap Hw1) as Hh.
    pose proof (f_equal (λ w, params (self w)) Hw1) as Hp.
    pose proof (f_equal (λ w, of_list (self w)) Hw1) as Ho.
    by cbn in Hh, Hp, Ho. }
  destruct r1 as [mv|e]; cbn; [by rewrite Hp, Ho, Hh|by rewrite Hh].
Qed.

Lemma adam_runs_are_independent_witness :
  let used := mkWorld
                (mkMinimize 3 (PyList [PyFloat 0; PyFloat 1]) 7 true 42
                   [PyFloat 1] (Some (PyFloat 2)))
                [[5]] [EvCallback 0] in
  (adam sphere JacTrue 0 3 PyNone false 0.1 0.9 0.999 false (world_of [5])).2
  = (adam sphere JacTrue 0 3 PyNone false 0.1 0.9 0.999 false used).2.
Proof.
  intros used.
  apply (adam_runs_are_independent sphere JacTrue 0 3 PyNone false 0.1 0.9
           0.999 (world_of [5]) used).
  reflexivity.
Defined.

(** ** The stored value across runs of [lbfgs] *)



